(** * Fuse: multi-field fuzzy search, orchestration and score aggregation

    A shallow embedding of [src/index.js] (class [Fuse]): the search
    orchestrator [_search], the per-field analysis [_analyze], the score
    aggregator [_computeScore], the sort and the result formatter.

    JavaScript numbers are idealised as rationals ([Q]) together with an
    explicit [NaN]; the collaborators whose sources live in other files of
    the repository ([Bitap], [deepValue], the token separator, the
    highlighter) are parameters of the development. *)

From Stdlib Require Import QArith Qminmax ZArith Ascii String List Sorted Permutation Lia Lqa Bool.
From stdpp Require Import strings gmap.
Import ListNotations.

Local Open Scope Q_scope.
Local Open Scope list_scope.

Set Warnings "-register-all".

(** ** JavaScript values *)

(** The values a collection, a record or a result can hold.  Objects keep
    their properties in insertion order. *)
Inductive value : Type :=
| VUndef
| VNull
| VNaN
| VNum (q : Q)
| VStr (s : string)
| VArr (l : list value)
| VObj (fields : list (string * value)).

(** A number that may be [NaN] (the result of [0 / 0] or of arithmetic on
    [undefined]). *)
Inductive num : Type :=
| Fin (q : Q)
| NaN.

Definition num_to_value (n : num) : value :=
  match n with Fin q => VNum q | NaN => VNaN end.

(** Errors the code can raise. *)
Inductive error : Type :=
| KeyWeightError   (* new Error('Key weight has to be > 0 and <= 1') *)
| TypeError.       (* property read on undefined or null *)

Inductive outcome (A : Type) : Type :=
| Returned (a : A)
| Threw (e : error).
Arguments Returned {A} a.
Arguments Threw {A} e.

Definition bind {A B} (m : outcome A) (k : A -> outcome B) : outcome B :=
  match m with
  | Returned a => k a
  | Threw e => Threw e
  end.

Notation "'do' x <- m ; k" := (bind m (fun x => k))
  (at level 10, x name, m at level 100, k at level 200).



(** Property lookup in an object's own properties. *)
Fixpoint assoc (k : string) (fs : list (string * value)) : option value :=
  match fs with
  | [] => None
  | (k', v) :: fs' => if String.eqb k' k then Some v else assoc k fs'
  end.

(** [v[k]] for a named property [k]: a read on [undefined] or [null]
    throws, a read on an object looks the property up, and the other
    values (strings, numbers, arrays) have no named own property. *)
Definition js_get (v : value) (k : string) : outcome value :=
  match v with
  | VUndef | VNull => Threw TypeError
  | VObj fs => Returned (match assoc k fs with Some x => x | None => VUndef end)
  | _ => Returned VUndef
  end.

(** [v[0]] *)
Definition js_index0 (v : value) : outcome value :=
  match v with
  | VUndef | VNull => Threw TypeError
  | VArr (x :: _) => Returned x
  | VStr (String c _) => Returned (VStr (String c EmptyString))
  | VObj fs => Returned (match assoc "0" fs with Some x => x | None => VUndef end)
  | _ => Returned VUndef
  end.

(** [o[k] = v] on a property list: an existing property keeps its place. *)
Fixpoint set_prop (k : string) (v : value) (fs : list (string * value))
  : list (string * value) :=
  match fs with
  | [] => [(k, v)]
  | (k', v') :: fs' =>
      if String.eqb k' k then (k', v) :: fs' else (k', v') :: set_prop k v fs'
  end.

(** The own enumerable properties [Object.assign] copies from a source.
    The sources of the search are records, that is objects; the indexed
    properties of a string or an array are left out. *)
Definition own_props (v : value) : list (string * value) :=
  match v with
  | VObj fs => fs
  | _ => []
  end.

(** [Object.assign({}, src, {[k]: v})]: a fresh object receiving the
    properties of [src], then [k]. *)
Definition assign_key (src : value) (k : string) (v : value) : value :=
  VObj (set_prop k v
          (fold_left (fun acc p => set_prop (fst p) (snd p) acc) (own_props src) [])).

(** [v.length], as the truth value the code tests. *)
Definition truthy_length (v : value) : bool :=
  match v with
  | VArr (_ :: _) => true
  | VStr (String _ _) => true
  | VObj fs =>
      match assoc "length" fs with
      | Some (VNum q) => negb (Qeq_bool q 0)
      | Some (VStr (String _ _)) | Some (VArr _) | Some (VObj _) => true
      | _ => false
      end
  | _ => false
  end.

(** ** Data model *)

(** What a [Bitap] searcher returns for a text. *)
Record match_outcome : Type := MatchOutcome {
  isMatch : bool;
  mo_score : Q;
  matchedIndices : list (nat * nat)
}.

(** An element of a result's [output]: one per matching field (or array
    element of a field).  [fr_nScore] is written by [_computeScore]. *)
Record field_result : Type := FieldResult {
  fr_key : string;
  fr_score : Q;
  fr_matchedIndices : list (nat * nat);
  fr_nScore : option Q
}.

(** A result object.  [resultMap[index]] and the element of [results] are
    the same object in the source; the model keeps one list, each entry
    carrying the index it is registered under in [resultMap].  [r_score] is
    [None] until [_computeScore] writes it. *)
Record result : Type := Result {
  r_index : nat;
  r_item : value;
  r_output : list field_result;
  r_score : option num
}.

(** An element of [options.keys]: a plain string or [{name, weight}]
    ([weight] may be left out). *)
Inductive key_spec : Type :=
| KeyName (name : string)
| KeyObj (name : string) (weight : option Q).

Record options : Type := Options {
  keys : list key_spec;
  id : option string;
  shouldSort : bool;
  sortFn : result -> result -> num;
  tokenize : bool;
  matchAllTokens : bool;
  includeMatches : bool;
  includeScore : bool;
  recursive_enabled : bool;
  recursive_key : string;
  highlight_enabled : bool
}.

(** [a.score - b.score]; a score that was never computed reads
    [undefined] and makes the difference [NaN]. *)
Definition default_sortFn (a b : result) : num :=
  match r_score a, r_score b with
  | Some (Fin x), Some (Fin y) => Fin (x - y)
  | _, _ => NaN
  end.

(** [resultMap[index]] *)
Fixpoint resultMap_get (index : nat) (results : list result) : option result :=
  match results with
  | [] => None
  | r :: rs => if Nat.eqb (r_index r) index then Some r else resultMap_get index rs
  end.

(** [resultMap[index].output.push(fr)], seen through [results]. *)
Fixpoint output_push (index : nat) (fr : field_result) (results : list result)
  : list result :=
  match results with
  | [] => []
  | r :: rs =>
      if Nat.eqb (r_index r) index
      then Result (r_index r) (r_item r) (r_output r ++ [fr]) (r_score r) :: rs
      else r :: output_push index fr rs
  end.

(** [results[results.indexOf(resultMap[index])] = r'] *)
Fixpoint result_replace (index : nat) (r' : result) (results : list result)
  : list result :=
  match results with
  | [] => []
  | r :: rs =>
      if Nat.eqb (r_index r) index then r' :: rs
      else r :: result_replace index r' rs
  end.

(** ** A small matcher and separator to run the search on

    Stand-ins for the collaborators, used to evaluate the search on
    concrete collections. *)
Module Toy.

Fixpoint common_prefix (a b : string) : nat :=
  match a, b with
  | String x a', String y b' =>
      if Ascii.eqb x y then S (common_prefix a' b') else O
  | _, _ => O
  end.

(** A pattern that is a prefix of the text matches with score 0; one that
    shares at least three leading characters matches with score 1/2. *)
Definition Bitap_search (pattern text : string) : match_outcome :=
  if String.prefix pattern text
  then MatchOutcome true 0 [(0%nat, Nat.pred (String.length pattern))]
  else if Nat.leb 3 (common_prefix pattern text)
  then MatchOutcome true (1 # 2) [(0%nat, Nat.pred (common_prefix pattern text))]
  else MatchOutcome false 1 [].

(** A matcher that answers from a table: the texts [A], [B] and [C]
    match any pattern with scores 0.2, 0.9 and 0.8. *)
Definition scripted_search (pattern text : string) : match_outcome :=
  if String.eqb text "A" then MatchOutcome true (2 # 10) [(0%nat, 0%nat)]
  else if String.eqb text "B" then MatchOutcome true (9 # 10) [(0%nat, 0%nat)]
  else if String.eqb text "C" then MatchOutcome true (8 # 10) [(0%nat, 0%nat)]
  else MatchOutcome false 1 [].

(** [s.split(/ +/g)] *)
Fixpoint split_from (s : string) (cur : string) (in_sep : bool) : list string :=
  match s with
  | EmptyString => [cur]
  | String c s' =>
      if Ascii.eqb c " "%char
      then (if in_sep then split_from s' cur true
            else cur :: split_from s' EmptyString true)
      else split_from s' (cur ++ String c EmptyString)%string false
  end.

Definition split (s : string) : list string := split_from s EmptyString false.

(** [deepValue] on a path of one segment. *)
Definition getFn (obj : value) (path : string) : value :=
  match obj with
  | VObj fs => match assoc path fs with Some x => x | None => VUndef end
  | _ => VUndef
  end.

Definition highlighter (item : value) : value := item.

(** The defaults of the constructor, with the given keys. *)
Definition defaults (ks : list key_spec) : options :=
  {| keys := ks; id := None; shouldSort := true; sortFn := default_sortFn;
     tokenize := false; matchAllTokens := false;
     includeMatches := false; includeScore := false;
     recursive_enabled := false; recursive_key := "undefined";
     highlight_enabled := false |}.

End Toy.

(** ** The search, over its collaborators *)

Section Fuse.

(** [new Bitap(pattern, options).search(text)] *)
Variable Bitap_search : string -> string -> match_outcome.
(** [s.split(options.tokenSeparator)] *)
Variable split : string -> list string.
(** [options.getFn(obj, path)] *)
Variable getFn : value -> string -> value.
(** [highlighter(item, options)], as the item it leaves behind. *)
Variable highlighter : value -> value.

Variable opts : options.

(** *** [_prepareSearchers] *)

(** A searcher is represented by the pattern it was built from. *)
Definition _prepareSearchers (pattern : string) : list string * string :=
  let tokenSearchers := if tokenize opts then split pattern else [] in
  (tokenSearchers, pattern).

(** *** [_analyze] *)

(** The accumulators of the token loops: [exists], [hasMatchInText] (or
    [numTextMatches]) and [scores]. *)

(** Body of the loop over the words of the text (index.js 249-266). *)
Definition word_step (tokenSearcher : string)
  (acc : bool * bool * list Q) (word : string) : bool * bool * list Q :=
  let '(exists_, hasMatchInText, scores) := acc in
  let tokenSearchResult := Bitap_search tokenSearcher word in
  if isMatch tokenSearchResult
  then (true, true, scores ++ [mo_score tokenSearchResult])
  else (exists_, hasMatchInText,
        if matchAllTokens opts then scores else scores ++ [1]).

(** Body of the loop over the token searchers (index.js 241-271). *)
Definition token_step (words : list string)
  (acc : bool * nat * list Q) (tokenSearcher : string) : bool * nat * list Q :=
  let '(exists_, numTextMatches, scores) := acc in
  let '(exists', hasMatchInText, scores') :=
    fold_left (word_step tokenSearcher) words (exists_, false, scores) in
  (exists', if hasMatchInText then S numTextMatches else numTextMatches, scores').

(** [averageScore] after index.js 273-278: [scores[0]] plus the rest, over
    the length; [undefined / 0] is [NaN] when [scores] is empty. *)
Definition average (scores : list Q) : num :=
  match scores with
  | [] => NaN
  | s0 :: rest => Fin (fold_left Qplus rest s0 / inject_Z (Z.of_nat (length scores)))
  end.

(** [averageScore > -1] *)
Definition gt_minus_one (n : num) : bool :=
  match n with
  | Fin a => negb (Qle_bool a (-1))
  | NaN => false
  end.

(** The tokenized pass (index.js 237-281): [exists], [numTextMatches] and
    [averageScore] as they stand after it; without [tokenize] they keep
    their initial values. *)
Definition token_pass (value_ : string) (tokenSearchers : list string)
  : bool * nat * num :=
  if tokenize opts then
    let words := split value_ in
    let '(exists_, numTextMatches, scores) :=
      fold_left (token_step words) tokenSearchers (false, 0%nat, []) in
    (exists_, numTextMatches, average scores)
  else (false, 0%nat, Fin (-1)).

(** [finalScore] (index.js 283-286). *)
Definition finalScore (mainSearchResult : match_outcome) (averageScore : num)
  : Q :=
  match averageScore with
  | Fin a => if gt_minus_one averageScore
             then (mo_score mainSearchResult + a) / 2
             else mo_score mainSearchResult
  | NaN => mo_score mainSearchResult
  end.

(** The string case of [_analyze] (index.js 231-320). *)
Definition analyze_string (key : string) (value_ : string) (record : value)
  (index : nat) (tokenSearchers : list string) (fullSearcher : string)
  (results : list result) : list result :=
  let mainSearchResult := Bitap_search fullSearcher value_ in
  let '(exists_, numTextMatches, averageScore) :=
    token_pass value_ tokenSearchers in
  let checkTextMatches :=
    if tokenize opts && matchAllTokens opts
    then Nat.leb (length tokenSearchers) numTextMatches
    else true in
  if (exists_ || isMatch mainSearchResult) && checkTextMatches then
    let fr := FieldResult key (finalScore mainSearchResult averageScore)
                          (matchedIndices mainSearchResult) None in
    match resultMap_get index results with
    | Some _ => output_push index fr results
    | None => results ++ [Result index record [fr] None]
    end
  else results.

(** [_analyze] (index.js 221-336): nothing for [undefined] and [null], the
    string case, one call per element for an array, nothing otherwise. *)
Fixpoint _analyze (key : string) (value_ : value) (record : value)
  (index : nat) (tokenSearchers : list string) (fullSearcher : string)
  (results : list result) {struct value_} : list result :=
  match value_ with
  | VUndef | VNull => results
  | VStr s => analyze_string key s record index tokenSearchers fullSearcher results
  | VArr l =>
      (fix each (l : list value) (results : list result) : list result :=
         match l with
         | [] => results
         | x :: l' =>
             each l' (_analyze key x record index tokenSearchers fullSearcher results)
         end) l results
  | _ => results
  end.

(** *** [_computeScore] *)

(** [weights ? weights[key].weight : 1]; reading [.weight] of a missing
    entry throws.  The entry is read as a property of the map's own: the
    properties a plain object inherits ([toString], [constructor], ...)
    are not modelled, and [_search] stores an entry for every key it
    analyses. *)
Definition field_weight (weights : option (gmap string Q)) (k : string)
  : outcome Q :=
  match weights with
  | None => Returned 1
  | Some w =>
      match w !! k with
      | Some x => Returned x
      | None => Threw TypeError
      end
  end.

(** Body of the loop over [output] (index.js 348-359); the accumulators
    are [totalScore], [bestScore] and the entries already visited. *)
Definition score_step (weights : option (gmap string Q))
  (acc : Q * Q * list field_result) (fr : field_result)
  : outcome (Q * Q * list field_result) :=
  let '(totalScore, bestScore, done_) := acc in
  let score := fr_score fr in
  do weight <- field_weight weights (fr_key fr);
  let nScore := score * weight in
  if negb (Qeq_bool weight 1)
  then Returned (totalScore, Qmin bestScore nScore, done_ ++ [fr])
  else Returned (totalScore + nScore, bestScore,
                 done_ ++ [FieldResult (fr_key fr) (fr_score fr)
                                       (fr_matchedIndices fr) (Some nScore)]).

(** A loop whose body may throw. *)
Fixpoint foldM {A B : Type} (f : A -> B -> outcome A) (l : list B) (a : A)
  : outcome A :=
  match l with
  | [] => Returned a
  | x :: l' => do a' <- f a x; foldM f l' a'
  end.

(** [totalScore / scoreLen]; [0 / 0] is [NaN]. *)
Definition mean_over (totalScore : Q) (scoreLen : nat) : num :=
  match scoreLen with
  | O => NaN
  | S _ => Fin (totalScore / inject_Z (Z.of_nat scoreLen))
  end.

(** One iteration of the outer loop of [_computeScore] (index.js 342-361). *)
Definition compute_one (weights : option (gmap string Q)) (r : result)
  : outcome result :=
  let output := r_output r in
  let scoreLen := length output in
  do acc <- foldM (score_step weights) output (0, 1, []);
  let '(totalScore, bestScore, output') := acc in
  Returned (Result (r_index r) (r_item r) output'
              (Some (if Qeq_bool bestScore 1
                     then mean_over totalScore scoreLen
                     else Fin bestScore))).

Definition _computeScore (weights : option (gmap string Q))
  (results : list result) : outcome (list result) :=
  foldM (fun done_ r => do r' <- compute_one weights r; Returned (done_ ++ [r']))
        results [].

(** *** [_sort] *)

(** [sortFn(a, b) > 0] *)
Definition positive (n : num) : bool :=
  match n with
  | Fin q => negb (Qle_bool q 0)
  | NaN => false
  end.

(** [Array.prototype.sort] with a comparator, as a stable insertion sort:
    an element moves in front of the first one that compares greater.
    (For a comparator that is not a consistent order the language leaves
    the resulting order to the engine.) *)
Fixpoint sort_insert (cmp : result -> result -> num) (x : result)
  (sorted : list result) : list result :=
  match sorted with
  | [] => [x]
  | y :: rest =>
      if positive (cmp y x) then x :: y :: rest
      else y :: sort_insert cmp x rest
  end.

Definition _sort (results : list result) : list result :=
  fold_left (fun sorted x => sort_insert (sortFn opts) x sorted) results [].

(** *** [_format] *)

Definition nat_value (n : nat) : value := VNum (inject_Z (Z.of_nat n)).

Definition indices_value (l : list (nat * nat)) : value :=
  VArr (map (fun p => VArr [nat_value (fst p); nat_value (snd p)]) l).

(** The object the [includeMatches] transformer pushes for an entry of
    [output]: [key] is set only when it is a non-empty string. *)
Definition match_value (fr : field_result) : value :=
  VObj (("indices", indices_value (fr_matchedIndices fr)) ::
        match fr_key fr with
        | EmptyString => []
        | k => [("key", VStr k)]
        end).

Definition score_value (s : option num) : value :=
  match s with
  | Some n => num_to_value n
  | None => VUndef
  end.

(** [options.id] is set (not [null], not the empty string). *)
Definition id_set : option string :=
  match id opts with
  | Some EmptyString => None
  | other => other
  end.

(** One iteration of the loop of [_format] (index.js 403-424). *)
Definition format_one (result_ : result) : outcome value :=
  do item <- match id_set with
             | Some i => js_index0 (getFn (r_item result_) i)
             | None => Returned (r_item result_)
             end;
  if negb (includeMatches opts) && negb (includeScore opts)
  then Returned item
  else Returned (VObj (
         [("item", item)]
         ++ (if includeMatches opts
             then [("matches", VArr (map match_value (r_output result_)))]
             else [])
         ++ (if includeScore opts
             then [("score", score_value (r_score result_))]
             else []))).

Definition _format (results : list result) : outcome (list value) :=
  do finalOutput <-
     foldM (fun out r => do d <- format_one r; Returned (out ++ [d])) results [];
  if includeMatches opts && highlight_enabled opts
  then Returned (map highlighter finalOutput)
  else Returned finalOutput.

(** *** [_search] *)

(** The raw result objects, as the flat-collection branch returns them. *)
Definition field_result_value (fr : field_result) : value :=
  VObj ([("key", VStr (fr_key fr));
         ("score", VNum (fr_score fr));
         ("matchedIndices", indices_value (fr_matchedIndices fr))]
        ++ match fr_nScore fr with
           | Some n => [("nScore", VNum n)]
           | None => []
           end).

Definition result_value (r : result) : value :=
  VObj ([("item", r_item r);
         ("output", VArr (map field_result_value (r_output r)))]
        ++ match r_score r with
           | Some n => [("score", num_to_value n)]
           | None => []
           end).

(** The loop of the flat branch (index.js 134-146): [record] is the
    position of the string. *)
Fixpoint flat_loop (items : list value) (i : nat)
  (tokenSearchers : list string) (fullSearcher : string)
  (results : list result) : list result :=
  match items with
  | [] => results
  | x :: rest =>
      flat_loop rest (S i) tokenSearchers fullSearcher
        (_analyze "" x (nat_value i) i tokenSearchers fullSearcher results)
  end.

(** The largest weight the double-precision difference [1 - weight] does
    not tell from 0: 2^-54. *)
Definition absorbed_weight : Q := 1 # 18014398509481984.

(** [(1 - key.weight) || 1]; a missing weight makes the difference [NaN].
    The difference is taken in double precision: for a weight above 0 and
    at most 2^-54 it is 1 itself, so that the key is stored with weight 1.
    (Apart from this the difference is taken exactly.) *)
Definition stored_weight (w : option Q) : Q :=
  match w with
  | Some x =>
      if negb (Qle_bool x 0) && Qle_bool x absorbed_weight then 1
      else if Qeq_bool (1 - x) 0 then 1 else 1 - x
  | None => 1
  end.

(** [key.weight <= 0 || key.weight > 1] *)
Definition weight_rejected (w : option Q) : bool :=
  match w with
  | Some x => Qle_bool x 0 || negb (Qle_bool x 1)
  | None => false
  end.

(** Body of the loop over [options.keys] (index.js 157-184). *)
Definition key_step (item : value) (i : nat)
  (tokenSearchers : list string) (fullSearcher : string)
  (acc : gmap string Q * list result) (key : key_spec)
  : outcome (gmap string Q * list result) :=
  let '(weights, results) := acc in
  match key with
  | KeyObj name w =>
      let weights' := <[name := stored_weight w]> weights in
      if weight_rejected w then Threw KeyWeightError
      else Returned (weights',
                     _analyze name (getFn item name) item i
                              tokenSearchers fullSearcher results)
  | KeyName k =>
      Returned (<[k := 1]> weights,
                _analyze k (getFn item k) item i
                         tokenSearchers fullSearcher results)
  end.

(** The recursion block (index.js 186-209).  [children_search] is the
    outcome of [this._search(item[recursive.key], ...)]; it is consulted
    only under the guard. *)
Definition splice_children (item : value) (i : nat)
  (children_search : outcome value) (results : list result)
  : outcome (list result) :=
  if recursive_enabled opts then
    do sub <- js_get item (recursive_key opts);
    match sub with
    | VArr (_ :: _) =>
        do children <- children_search;
        match resultMap_get i results with
        | Some r =>
            let result_ :=
              Result (r_index r)
                     (assign_key (r_item r) (recursive_key opts) children)
                     (r_output r) (r_score r) in
            Returned (result_replace i result_ results)
        | None =>
            if truthy_length children
            then Returned
                   (results ++
                    [Result i (assign_key item (recursive_key opts) children)
                            [] None])
            else Returned results
        end
    | _ => Returned results
    end
  else Returned results.

(** Body of the loop over the records (index.js 154-210). *)
Definition record_step (tokenSearchers : list string) (fullSearcher : string)
  (acc : nat * gmap string Q * list result) (rc : value * outcome value)
  : outcome (nat * gmap string Q * list result) :=
  let '(i, weights, results) := acc in
  let '(item, children_search) := rc in
  do wr <- foldM (key_step item i tokenSearchers fullSearcher)
                 (keys opts) (weights, results);
  do results' <- splice_children item i children_search (snd wr);
  Returned (S i, fst wr, results').

(** The loop over the records (index.js 153-210), on the records each
    paired with the outcome of the search of its children. *)
Definition collect_records (tokenSearchers : list string) (fullSearcher : string)
  (paired : list (value * outcome value))
  : outcome (gmap string Q * list result) :=
  do st <- foldM (record_step tokenSearchers fullSearcher) paired
                 (0%nat, ∅, []);
  Returned (snd (fst st), snd st).

(** The results as they reach [_format] (index.js 153-216). *)
Definition ranked_records (tokenSearchers : list string) (fullSearcher : string)
  (paired : list (value * outcome value)) : outcome (list result) :=
  do st <- collect_records tokenSearchers fullSearcher paired;
  do scored <- _computeScore (Some (fst st)) (snd st);
  Returned (if shouldSort opts then _sort scored else scored).

(** The body of [_search] (index.js 125-219). *)
Definition search_records (tokenSearchers : list string) (fullSearcher : string)
  (list_ : list value) (paired : list (value * outcome value))
  : outcome value :=
  match list_ with
  | VStr _ :: _ =>
      Returned (VObj [("weights", VNull);
                      ("results",
                       VArr (map result_value
                               (flat_loop list_ 0 tokenSearchers fullSearcher [])))])
  | _ =>
      do ranked <- ranked_records tokenSearchers fullSearcher paired;
      do out <- _format ranked;
      Returned (VArr out)
  end.

(** [item[recursive.key]] where the read does not throw. *)
Definition child_of (item : value) : value :=
  match item with
  | VObj fs => match assoc (recursive_key opts) fs with Some x => x | None => VUndef end
  | _ => VUndef
  end.

(** [_search(list, tokenSearchers, fullSearcher)].  The collection is an
    array ([this.list], or children that passed [isArray]); the recursion
    descends into [item[recursive.key]] of each record. *)
Fixpoint _search (tokenSearchers : list string) (fullSearcher : string)
  (list_ : value) {struct list_} : outcome value :=
  match list_ with
  | VArr l =>
      search_records tokenSearchers fullSearcher l
        (map (fun item =>
                (item,
                 match item with
                 | VObj fs =>
                     (fix find (fs : list (string * value)) : outcome value :=
                        match fs with
                        | [] => Threw TypeError
                        | (k, v) :: fs' =>
                            if String.eqb k (recursive_key opts)
                            then _search tokenSearchers fullSearcher v
                            else find fs'
                        end) fs
                 | _ => Threw TypeError
                 end)) l)
  | _ => Threw TypeError
  end.

(** [search(pattern)] (index.js 98-107) on [this.list]. *)
Definition search (list_ : list value) (pattern : string) : outcome value :=
  let '(tokenSearchers, fullSearcher) := _prepareSearchers pattern in
  _search tokenSearchers fullSearcher (VArr list_).

(** ** Notions the statements use *)

(** A query token hits the text when it matches one of its words. *)
Definition has_match (words : list string) (tokenSearcher : string) : bool :=
  existsb (fun word => isMatch (Bitap_search tokenSearcher word)) words.

(** What a (query token, word) pair adds to [scores]. *)
Definition pair_score (tokenSearcher word : string) : list Q :=
  let r := Bitap_search tokenSearcher word in
  if isMatch r then [mo_score r]
  else if matchAllTokens opts then [] else [1].

Definition pair_scores (words : list string) (tokenSearcher : string) : list Q :=
  flat_map (pair_score tokenSearcher) words.

Definition Qsum (l : list Q) : Q := fold_right Qplus 0 l.

(** The arithmetic mean of a non-empty list. *)
Definition mean (l : list Q) : Q := Qsum l / inject_Z (Z.of_nat (length l)).

(** The scores of all (query token, word) pairs of a text, in the order
    the loops visit them. *)
Definition all_pair_scores (value_ : string) (tokenSearchers : list string)
  : list Q :=
  flat_map (pair_scores (split value_)) tokenSearchers.

(** The token average as the specification words it: one contribution
    per query token, the scores of its hits when it hits some word of the
    text and 1 when it hits none (nothing under [matchAllTokens]). *)
Definition claimed_token_scores (value_ : string) (tokenSearchers : list string)
  : list Q :=
  let words := split value_ in
  flat_map
    (fun t =>
       if has_match words t
       then flat_map (fun w => let r := Bitap_search t w in
                               if isMatch r then [mo_score r] else []) words
       else if matchAllTokens opts then [] else [1])
    tokenSearchers.

Definition claimed_finalScore (value_ : string) (tokenSearchers : list string)
  (fullSearcher : string) : Q :=
  let full := mo_score (Bitap_search fullSearcher value_) in
  if tokenize opts
  then (full + mean (claimed_token_scores value_ tokenSearchers)) / 2
  else full.

Definition nonempty {A} (l : list A) : bool :=
  match l with [] => false | _ :: _ => true end.

(** The weight a configured key declares, if it declares one. *)
Definition key_weight (k : key_spec) : option Q :=
  match k with
  | KeyName _ => None
  | KeyObj _ w => w
  end.

(** The configured key that decides the stored weight of a name: the last
    one of that name, each key overwriting the entry of the ones before. *)
Fixpoint find_key (name : string) (ks : list key_spec) : option key_spec :=
  match ks with
  | [] => None
  | k :: ks' =>
      match find_key name ks' with
      | Some k' => Some k'
      | None =>
          match k with
          | KeyName n | KeyObj n _ => if String.eqb n name then Some k else None
          end
      end
  end.

(** The weight declared for a name by [options.keys]. *)
Definition configured_weight (name : string) : option Q :=
  match find_key name (keys opts) with
  | Some k => key_weight k
  | None => None
  end.

(** A key whose weight the check of index.js 163 rejects. *)
Definition bad_key (k : key_spec) : bool :=
  match k with
  | KeyName _ => false
  | KeyObj _ w => weight_rejected w
  end.

Definition not_weight_error {A} (m : outcome A) : Prop :=
  m <> Threw KeyWeightError.

(** [typeof list[0] === 'string'] *)
Definition first_is_string (l : list value) : bool :=
  match l with
  | VStr _ :: _ => true
  | _ => false
  end.

Fixpoint value_size (v : value) : nat :=
  match v with
  | VArr l =>
      S ((fix go (l : list value) : nat :=
            match l with
            | [] => 0
            | x :: l' => value_size x + go l'
            end) l)
  | VObj fs =>
      S ((fix go (fs : list (string * value)) : nat :=
            match fs with
            | [] => 0
            | (_, x) :: fs' => value_size x + go fs'
            end) fs)
  | _ => 1
  end%nat.

Definition indices_below (n : nat) (rs : list result) : Prop :=
  forall j, In j (map r_index rs) -> (j < n)%nat.

(** A result whose aggregate is a number. *)
Definition scored (r : result) : Prop := exists q, r_score r = Some (Fin q).

(** [a] is ranked at or before [b]: both aggregates are numbers and the
    first is not above the second. *)
Definition score_le (a b : result) : Prop :=
  match r_score a, r_score b with
  | Some (Fin x), Some (Fin y) => x <= y
  | _, _ => False
  end.

Definition has_output (r : result) : Prop := r_output r <> [].

(** What [_computeScore] reads of an element of [output] and never
    changes: its key, its score and its indices. *)
Definition field_core (fr : field_result) : string * Q * list (nat * nat) :=
  (fr_key fr, fr_score fr, fr_matchedIndices fr).

(** Two results that differ at most in what [_computeScore] writes: the
    aggregate, and [nScore] of the elements of [output]. *)
Definition same_but_scores (r r' : result) : Prop :=
  r_index r' = r_index r /\ r_item r' = r_item r
  /\ map field_core (r_output r') = map field_core (r_output r).

(** Every element of every [output] has an entry in [weights]. *)
Definition keys_weighted (weights : gmap string Q) (rs : list result) : Prop :=
  forall r fr, In r rs -> In fr (r_output r) ->
               exists x, weights !! fr_key fr = Some x.

(** The test of index.js 295, on the hits of the tokens: some query token
    hits or the full text matches, and under [matchAllTokens] every query
    token hits. *)
Definition text_included (value_ : string) (tokenSearchers : list string)
  (fullSearcher : string) : bool :=
  let words := split value_ in
  ((tokenize opts && existsb (has_match words) tokenSearchers)
   || isMatch (Bitap_search fullSearcher value_))
  && (if tokenize opts && matchAllTokens opts
      then forallb (has_match words) tokenSearchers
      else true).

(** Recording a field result under an index (index.js 297-319): pushed on
    the entry of the index when there is one, in a new entry otherwise. *)
Definition record_field (index : nat) (record : value) (fr : field_result)
  (results : list result) : list result :=
  match resultMap_get index results with
  | Some _ => output_push index fr results
  | None => results ++ [Result index record [fr] None]
  end.

(** The name a configured key searches under. *)
Definition key_name (k : key_spec) : string :=
  match k with
  | KeyName n => n
  | KeyObj n _ => n
  end.


(** A result stands for a record of the collection: it is registered
    under the position of a record and holds that record, or (with
    recursion) the copy of it that carries the results of its children. *)
Definition registered (paired : list (value * outcome value)) (r : result)
  : Prop :=
  exists record c,
    nth_error paired (r_index r) = Some (record, c)
    /\ (r_item r = record
        \/ (recursive_enabled opts = true
            /\ exists children,
                 c = Returned children
                 /\ r_item r = assign_key record (recursive_key opts) children)).

(** While record [i] is handled: the indices are in ascending order and
    at most [i]. *)
Definition ordered_upto (i : nat) (rs : list result) : Prop :=
  StronglySorted lt (map r_index rs) /\ indices_below (S i) rs.

(** The stored weights are all above 0 and at most 1. *)
Definition weights_in_range (weights : gmap string Q) : Prop :=
  forall k x, weights !! k = Some x -> 0 < x <= 1.

(** The field scores recorded in the results are all between 0 and 1. *)
Definition scores_in_range (rs : list result) : Prop :=
  forall r fr, In r rs -> In fr (r_output r) -> 0 <= fr_score fr <= 1.

(** A result is there for a reason: one of the fields of its record
    matched, or (with recursion) it is the copy of the record at its
    position, whose designated field is a non-empty array, made for the
    non-empty results that the search of those children returned. *)
Definition justified (paired : list (value * outcome value)) (r : result)
  : Prop :=
  r_output r <> []
  \/ (recursive_enabled opts = true
      /\ exists record x xs children,
           nth_error paired (r_index r) = Some (record, Returned children)
           /\ js_get record (recursive_key opts) = Returned (VArr (x :: xs))
           /\ truthy_length children = true
           /\ r_item r = assign_key record (recursive_key opts) children).

(** While record [i] is handled: every result is justified, and those of
    record [i] by a matched field. *)
Definition justified_upto (paired : list (value * outcome value)) (i : nat)
  (rs : list result) : Prop :=
  forall r, In r rs -> justified paired r /\ (r_index r = i -> r_output r <> []).

(** A result as the loop over a flat collection leaves it: the item is
    the position of the string, there is a matched field, every field has
    the empty key, and no aggregate has been computed. *)
Definition flat_entry (r : result) : Prop :=
  r_item r = nat_value (r_index r)
  /\ r_output r <> []
  /\ (forall fr, In fr (r_output r) -> fr_key fr = EmptyString)
  /\ r_score r = None.

(** Every entry of the weight map is the stored weight of the key
    configured for its name. *)
Definition weights_configured (weights : gmap string Q) : Prop :=
  forall name x, weights !! name = Some x ->
                 x = stored_weight (configured_weight name).

(** The recursive call sits where the source has it: on
    [item[recursive.key]]. *)
Lemma _search_unfold tokenSearchers fullSearcher l :
  _search tokenSearchers fullSearcher (VArr l) =
  search_records tokenSearchers fullSearcher l
    (map (fun item => (item, _search tokenSearchers fullSearcher (child_of item))) l).
Proof.
  cbn [_search]. f_equal. apply map_ext. intros item. f_equal.
  destruct item; try reflexivity.
  unfold child_of. induction fields as [|[k v] fs IH]; [reflexivity|].
  cbn [assoc]. destruct (String.eqb k (recursive_key opts)); [reflexivity|exact IH].
Qed.

(** ** The token loops, declaratively *)

Lemma word_loop tokenSearcher words e h sc :
  fold_left (word_step tokenSearcher) words (e, h, sc) =
  (e || has_match words tokenSearcher, h || has_match words tokenSearcher,
   sc ++ pair_scores words tokenSearcher).
Proof.
  revert e h sc. induction words as [|w ws IH]; intros e h sc.
  - cbn. now rewrite !orb_false_r, app_nil_r.
  - cbn [fold_left]. unfold word_step at 2, has_match, pair_scores, pair_score.
    cbn [existsb flat_map].
    destruct (isMatch (Bitap_search tokenSearcher w)); rewrite IH;
      unfold has_match, pair_scores, pair_score.
    + cbn. rewrite !orb_true_r. now rewrite <- app_assoc.
    + cbn [orb]. destruct (matchAllTokens opts); cbn [app]; [reflexivity|].
      now rewrite <- app_assoc.
Qed.

Lemma token_loop words toks e n sc :
  fold_left (token_step words) toks (e, n, sc) =
  (e || existsb (has_match words) toks,
   (n + length (List.filter (has_match words) toks))%nat,
   sc ++ flat_map (pair_scores words) toks).
Proof.
  revert e n sc. induction toks as [|t ts IH]; intros e n sc.
  - cbn. now rewrite orb_false_r, Nat.add_0_r, app_nil_r.
  - cbn [fold_left]. unfold token_step at 2. rewrite word_loop.
    cbn [orb existsb List.filter flat_map]. rewrite IH.
    destruct (has_match words t); cbn [length].
    + rewrite orb_true_r. cbn [orb]. f_equal; [f_equal; lia|].
      now rewrite <- app_assoc.
    + rewrite orb_false_r. cbn [orb]. now rewrite <- app_assoc.
Qed.

Lemma filter_length_lt {A} (f : A -> bool) (l : list A) (x : A) :
  In x l -> f x = false -> (length (List.filter f l) < length l)%nat.
Proof.
  induction l as [|y l IH]; [intros []|].
  intros [->|Hin] Hx; cbn [List.filter length].
  - rewrite Hx. pose proof (List.filter_length_le f l). lia.
  - specialize (IH Hin Hx). destruct (f y); cbn [length]; lia.
Qed.


(** ** Fields that cannot be searched *)


(** ** [matchAllTokens] *)

Lemma has_match_false words t :
  (forall word, In word words -> isMatch (Bitap_search t word) = false) ->
  has_match words t = false.
Proof.
  intros H. unfold has_match. induction words as [|w ws IH]; [reflexivity|].
  cbn [existsb]. rewrite H by now left. apply IH. intros; apply H; now right.
Qed.

(** C5: with [tokenize] and [matchAllTokens], a text for which some query
    token matches none of its words contributes nothing, whatever the
    full-text searcher says of it. *)
Theorem matchAllTokens_excludes_field
  (key s : string) (record : value) (index : nat)
  (tokenSearchers : list string) (fullSearcher : string)
  (results : list result) (t : string) :
  tokenize opts = true -> matchAllTokens opts = true ->
  In t tokenSearchers ->
  (forall word, In word (split s) -> isMatch (Bitap_search t word) = false) ->
  _analyze key (VStr s) record index tokenSearchers fullSearcher results
  = results.
Proof.
  intros Ht Hm Hin Hno. cbn [_analyze]. unfold analyze_string, token_pass.
  rewrite Ht, Hm, token_loop. cbn [andb Nat.add].
  pose proof (filter_length_lt (has_match (split s)) tokenSearchers t Hin
                (has_match_false _ _ Hno)) as Hlt.
  apply Nat.leb_gt in Hlt. rewrite Hlt. now rewrite andb_false_r.
Qed.

(** ** The score of a field *)

Lemma fold_left_Qplus (l : list Q) (a : Q) :
  fold_left Qplus l a == a + Qsum l.
Proof.
  revert a. induction l as [|x l IH]; intros a; cbn [fold_left Qsum fold_right].
  - ring.
  - rewrite IH. unfold Qsum. ring.
Qed.

Lemma Qsum_nonneg (l : list Q) :
  Forall (fun x => 0 <= x) l -> 0 <= Qsum l.
Proof.
  induction 1 as [|x l Hx _ IH]; cbn [Qsum fold_right]; [lra|].
  unfold Qsum in IH. lra.
Qed.

Lemma mean_nonneg (l : list Q) :
  Forall (fun x => 0 <= x) l -> 0 <= mean l.
Proof.
  intros H. unfold mean, Qdiv. apply Qmult_le_0_compat; [now apply Qsum_nonneg|].
  apply Qinv_le_0_compat. unfold Qle; cbn. lia.
Qed.

Lemma average_mean (s0 : Q) (rest : list Q) :
  exists a, average (s0 :: rest) = Fin a /\ a == mean (s0 :: rest).
Proof.
  eexists; split; [reflexivity|]. unfold mean.
  rewrite fold_left_Qplus. reflexivity.
Qed.

Lemma all_pair_scores_nonneg value_ tokenSearchers :
  (forall t w, 0 <= mo_score (Bitap_search t w)) ->
  Forall (fun x => 0 <= x) (all_pair_scores value_ tokenSearchers).
Proof.
  intros Hb. unfold all_pair_scores. apply List.Forall_forall. intros x Hx.
  apply in_flat_map in Hx as (t & _ & Hx). unfold pair_scores in Hx.
  apply in_flat_map in Hx as (w & _ & Hx). unfold pair_score in Hx.
  destruct (isMatch (Bitap_search t w)).
  - destruct Hx as [<-|[]]. apply Hb.
  - destruct (matchAllTokens opts); [destruct Hx|].
    destruct Hx as [<-|[]]. lra.
Qed.

(** C3 (as the code has it): the token average is taken over all (query
    token, word) pairs, a matching pair counting its score and a pair that
    does not match counting 1 (nothing under [matchAllTokens]); the final
    score of the field is the mean of the full-text score and this average
    when [tokenize] is on and some pair counted, and the full-text score
    alone otherwise. *)
Theorem finalScore_over_pairs
  (value_ : string) (tokenSearchers : list string) (fullSearcher : string) :
  (forall t w, 0 <= mo_score (Bitap_search t w)) ->
  finalScore (Bitap_search fullSearcher value_)
             (snd (token_pass value_ tokenSearchers))
  == if tokenize opts && nonempty (all_pair_scores value_ tokenSearchers)
     then (mo_score (Bitap_search fullSearcher value_)
           + mean (all_pair_scores value_ tokenSearchers)) / 2
     else mo_score (Bitap_search fullSearcher value_).
Proof.
  intros Hb. unfold token_pass.
  destruct (tokenize opts); cbn [andb]; [|reflexivity].
  rewrite token_loop. cbn [snd app].
  pose proof (all_pair_scores_nonneg value_ tokenSearchers Hb) as Hnn.
  fold (all_pair_scores value_ tokenSearchers).
  destruct (all_pair_scores value_ tokenSearchers) as [|s0 rest];
    [reflexivity|].
  destruct (average_mean s0 rest) as (a & -> & Ha).
  pose proof (mean_nonneg _ Hnn) as Hm.
  cbn [nonempty finalScore gt_minus_one].
  destruct (Qle_bool a (-1)) eqn:E.
  - apply Qle_bool_iff in E. rewrite Ha in E. lra.
  - cbn [negb]. now rewrite Ha.
Qed.

(** ** The aggregate score of a record *)

(** The loop over [output] when every entry has a weight: it does not
    throw, [bestScore] ends at or below where it started and below every
    weighted product, and is either untouched or one of those products. *)
Lemma score_loop_best (weights : gmap string Q) (wf : field_result -> Q)
  (output : list field_result) :
  (forall fr, In fr output -> weights !! fr_key fr = Some (wf fr)) ->
  forall total best done_,
  exists total' best' done',
    foldM (score_step (Some weights)) output (total, best, done_)
    = Returned (total', best', done')
    /\ best' <= best
    /\ (forall fr, In fr output -> Qeq_bool (wf fr) 1 = false ->
                   best' <= fr_score fr * wf fr)
    /\ (best' == best
        \/ exists fr, In fr output /\ Qeq_bool (wf fr) 1 = false
                      /\ best' == fr_score fr * wf fr).
Proof.
  induction output as [|fr out IH]; intros Hw total best done_.
  - exists total, best, done_. cbn. repeat split; try lra. intros ? [].
  - cbn [foldM]. unfold score_step at 1. cbn [field_weight].
    rewrite (Hw fr (or_introl eq_refl)). cbn [bind].
    assert (Hw' : forall fr', In fr' out -> weights !! fr_key fr' = Some (wf fr'))
      by (intros; apply Hw; now right).
    destruct (Qeq_bool (wf fr) 1) eqn:E; cbn [negb bind].
    + destruct (IH Hw' (total + fr_score fr * wf fr) best
                  (done_ ++ [FieldResult (fr_key fr) (fr_score fr)
                               (fr_matchedIndices fr)
                               (Some (fr_score fr * wf fr))]))
        as (t' & b' & d' & -> & Hle & Hlow & Hatt).
      exists t', b', d'. repeat split; [exact Hle| |].
      * intros fr' [<-|Hin] Hq; [congruence|now apply Hlow].
      * destruct Hatt as [Hb|(fr' & Hin & Hq & Heq)]; [now left|].
        right. exists fr'. repeat split; [now right|exact Hq|exact Heq].
    + destruct (IH Hw' total (Qmin best (fr_score fr * wf fr)) (done_ ++ [fr]))
        as (t' & b' & d' & -> & Hle & Hlow & Hatt).
      pose proof (Q.le_min_l best (fr_score fr * wf fr)) as Hl.
      pose proof (Q.le_min_r best (fr_score fr * wf fr)) as Hr.
      exists t', b', d'. repeat split; [lra| |].
      * intros fr' [<-|Hin] Hq; [lra|now apply Hlow].
      * destruct Hatt as [Hb|(fr' & Hin & Hq & Heq)].
        -- destruct (Q.min_dec best (fr_score fr * wf fr)) as [Hm|Hm].
           ++ left. now rewrite Hb.
           ++ right. exists fr. repeat split; [now left|exact E|].
              now rewrite Hb.
        -- right. exists fr'. repeat split; [now right|exact Hq|exact Heq].
Qed.

(** The loop over [output] when every entry has weight 1: [bestScore] is
    untouched and [totalScore] grows by the sum of the scores. *)
Lemma score_loop_total (weights : gmap string Q) (wf : field_result -> Q)
  (output : list field_result) :
  (forall fr, In fr output ->
     weights !! fr_key fr = Some (wf fr) /\ Qeq_bool (wf fr) 1 = true) ->
  forall total best done_,
  exists total' done',
    foldM (score_step (Some weights)) output (total, best, done_)
    = Returned (total', best, done')
    /\ total' == total + Qsum (map fr_score output).
Proof.
  induction output as [|fr out IH]; intros Hw total best done_.
  - exists total, done_. cbn. split; [reflexivity|lra].
  - cbn [foldM]. unfold score_step at 1. cbn [field_weight].
    destruct (Hw fr (or_introl eq_refl)) as [-> E]. cbn [bind].
    rewrite E. cbn [negb bind].
    destruct (IH (fun fr' H => Hw fr' (or_intror H))
                (total + fr_score fr * wf fr) best
                (done_ ++ [FieldResult (fr_key fr) (fr_score fr)
                             (fr_matchedIndices fr)
                             (Some (fr_score fr * wf fr))]))
      as (t' & d' & -> & Ht).
    exists t', d'. split; [reflexivity|].
    apply Qeq_bool_eq in E. rewrite Ht. cbn [map Qsum fold_right].
    fold (Qsum (map fr_score out)). rewrite E. ring.
Qed.

Lemma existsb_false_forall {A} (f : A -> bool) (l : list A) :
  existsb f l = false -> forall x, In x l -> f x = false.
Proof.
  induction l as [|y l IH]; [intros _ ? []|].
  cbn [existsb]. intros H x [<-|Hin];
    apply orb_false_elim in H as [H1 H2]; [exact H1|now apply IH].
Qed.

(** The aggregate of one result when every field has a stored weight
    above 0 and at most 1 and a score between 0 and 1: the least product
    of score and weight over the fields whose weight is not 1 when there
    are such fields, the mean of the scores otherwise. *)
Lemma compute_one_aggregate
  (weights : gmap string Q) (wf : field_result -> Q) (r : result) :
  (forall fr, In fr (r_output r) ->
     weights !! fr_key fr = Some (wf fr)
     /\ 0 < wf fr <= 1 /\ 0 <= fr_score fr <= 1) ->
  exists r',
    compute_one (Some weights) r = Returned r'
    /\ if existsb (fun fr => negb (Qeq_bool (wf fr) 1)) (r_output r)
       then exists m,
              r_score r' = Some (Fin m)
              /\ (exists fr, In fr (r_output r)
                             /\ negb (Qeq_bool (wf fr) 1) = true
                             /\ m == fr_score fr * wf fr)
              /\ (forall fr, In fr (r_output r) ->
                             negb (Qeq_bool (wf fr) 1) = true ->
                             m <= fr_score fr * wf fr)
       else match r_output r with
            | [] => r_score r' = Some NaN
            | _ :: _ => exists m, r_score r' = Some (Fin m)
                                  /\ m == mean (map fr_score (r_output r))
            end.
Proof.
  intros H. unfold compute_one.
  destruct (existsb (fun fr => negb (Qeq_bool (wf fr) 1)) (r_output r)) eqn:Ex.
  - destruct (score_loop_best weights wf (r_output r)
                (fun fr Hin => proj1 (H fr Hin)) 0 1 [])
      as (t' & b' & d' & -> & Hle & Hlow & Hatt). cbn [bind].
    apply existsb_exists in Ex as (fr0 & Hin0 & Hw0).
    assert (Hone : forall fr, In fr (r_output r) ->
              negb (Qeq_bool (wf fr) 1) = true ->
              Qeq_bool (wf fr) 1 = false /\ fr_score fr * wf fr < 1).
    { intros fr Hin Hw. destruct (H fr Hin) as (_ & Hr & Hs).
      apply negb_true_iff in Hw. split; [exact Hw|].
      apply Qeq_bool_neq in Hw. nra. }
    destruct (Hone fr0 Hin0 Hw0) as (Hq0 & Hlt0).
    pose proof (Hlow fr0 Hin0 Hq0) as Hb0.
    assert (Hne : Qeq_bool b' 1 = false).
    { destruct (Qeq_bool b' 1) eqn:E; [|reflexivity].
      apply Qeq_bool_eq in E. lra. }
    rewrite Hne. eexists; split; [reflexivity|]. cbn [r_score].
    exists b'. split; [reflexivity|]. split.
    + destruct Hatt as [Hb|(fr & Hin & Hq & Heq)]; [lra|].
      exists fr. repeat split; [exact Hin|now rewrite Hq|exact Heq].
    + intros fr Hin Hw. destruct (Hone fr Hin Hw) as (Hq & _). now apply Hlow.
  - pose proof (existsb_false_forall _ _ Ex) as Hall.
    destruct (score_loop_total weights wf (r_output r)) with
      (total := 0) (best := 1) (done_ := @nil field_result)
      as (t' & d' & -> & Ht).
    { intros fr Hin. destruct (H fr Hin) as (Hk & _). split; [exact Hk|].
      specialize (Hall fr Hin). now apply negb_false_iff in Hall. }
    cbn [bind]. eexists; split; [reflexivity|]. cbn [r_score].
    change (Qeq_bool 1 1) with true. cbv iota.
    destruct (r_output r) as [|fr out]; [reflexivity|].
    cbn [length mean_over]. eexists; split; [reflexivity|].
    unfold mean. rewrite Ht, length_map. cbn [length].
    rewrite Qplus_0_l. reflexivity.
Qed.

(** ** Rejected weights *)

Lemma bind_not_weight_error {A B} (m : outcome A) (k : A -> outcome B) :
  not_weight_error m -> (forall a, not_weight_error (k a)) ->
  not_weight_error (bind m k).
Proof.
  unfold not_weight_error. destruct m as [a|e]; cbn; intros Hm Hk.
  - apply Hk.
  - intros [= ->]. now apply Hm.
Qed.

Lemma foldM_not_weight_error {A B} (f : A -> B -> outcome A) (l : list B) :
  (forall a x, In x l -> not_weight_error (f a x)) ->
  forall a, not_weight_error (foldM f l a).
Proof.
  induction l as [|x l IH]; intros Hf a; cbn [foldM]; [discriminate|].
  apply bind_not_weight_error; [apply Hf; now left|].
  intros a'. apply IH. intros; apply Hf; now right.
Qed.

Lemma key_loop_accepts item i toks full ks :
  existsb bad_key ks = false ->
  forall acc, exists acc',
    foldM (key_step item i toks full) ks acc = Returned acc'.
Proof.
  induction ks as [|k ks IH]; intros Hk acc; cbn [foldM]; [now eexists|].
  cbn [existsb] in Hk. apply orb_false_elim in Hk as [Hk1 Hk2].
  destruct acc as [w rs]. unfold key_step at 1.
  destruct k as [name|name wt]; cbn [bad_key] in Hk1.
  - cbn [bind]. apply IH, Hk2.
  - rewrite Hk1. cbn [bind]. apply IH, Hk2.
Qed.

Lemma key_loop_rejects item i toks full ks :
  existsb bad_key ks = true ->
  forall acc,
    foldM (key_step item i toks full) ks acc = Threw KeyWeightError.
Proof.
  induction ks as [|k ks IH]; intros Hk acc; cbn [foldM]; [discriminate|].
  cbn [existsb] in Hk. destruct acc as [w rs]. unfold key_step at 1.
  destruct k as [name|name wt]; cbn [bad_key] in Hk.
  - cbn [bind]. apply IH, Hk.
  - destruct (weight_rejected wt); [reflexivity|]. cbn [bind]. apply IH, Hk.
Qed.

Lemma splice_not_weight_error item i c rs :
  not_weight_error c -> not_weight_error (splice_children item i c rs).
Proof.
  intros Hc. unfold splice_children.
  destruct (recursive_enabled opts); [|discriminate].
  apply bind_not_weight_error.
  - destruct item; cbn; discriminate.
  - intros sub. destruct sub as [| | | | |[|x xs]|]; try discriminate.
    apply bind_not_weight_error; [exact Hc|]. intros ch.
    destruct (resultMap_get i rs); [discriminate|].
    destruct (truthy_length ch); discriminate.
Qed.

Lemma computeScore_not_weight_error w rs :
  not_weight_error (_computeScore w rs).
Proof.
  unfold _computeScore. apply foldM_not_weight_error. intros a r _.
  apply bind_not_weight_error; [|discriminate].
  unfold compute_one. apply bind_not_weight_error.
  - apply foldM_not_weight_error. intros [[t b] d] fr _. unfold score_step.
    apply bind_not_weight_error.
    + unfold field_weight. destruct w as [m|]; [|discriminate].
      destruct (m !! fr_key fr); discriminate.
    + intros x. destruct (negb (Qeq_bool x 1)); discriminate.
  - intros [[t b] d]. discriminate.
Qed.

Lemma format_not_weight_error rs : not_weight_error (_format rs).
Proof.
  unfold _format. apply bind_not_weight_error.
  - apply foldM_not_weight_error. intros a r _.
    apply bind_not_weight_error; [|discriminate].
    unfold format_one. apply bind_not_weight_error.
    + destruct id_set; [|discriminate]. unfold js_index0.
      destruct (getFn (r_item r) s) as [| | | |[|? ?]|[|? ?]|]; discriminate.
    + intros it. destruct (negb (includeMatches opts) && negb (includeScore opts));
        discriminate.
  - intros out. destruct (includeMatches opts && highlight_enabled opts);
      discriminate.
Qed.

Lemma search_records_structured toks full l paired :
  first_is_string l = false ->
  search_records toks full l paired =
  (do ranked <- ranked_records toks full paired;
   do out <- _format ranked;
   Returned (VArr out)).
Proof.
  unfold search_records. destruct l as [|[] l']; try reflexivity. discriminate.
Qed.

Lemma search_records_flat toks full l paired :
  first_is_string l = true ->
  search_records toks full l paired =
  Returned (VObj [("weights", VNull);
                  ("results",
                   VArr (map result_value (flat_loop l 0 toks full [])))]).
Proof.
  unfold search_records. destruct l as [|[] l']; try discriminate. reflexivity.
Qed.

Lemma value_size_pos v : (1 <= value_size v)%nat.
Proof. destruct v; cbn; lia. Qed.

Lemma value_size_element x l :
  In x l -> (value_size x < value_size (VArr l))%nat.
Proof.
  cbn [value_size]. induction l as [|y l IH]; [intros []|].
  intros [->|Hin]; [lia|]. specialize (IH Hin). lia.
Qed.

Lemma value_size_child item :
  (value_size (child_of item) <= value_size item)%nat.
Proof.
  destruct item; try (cbn; lia). unfold child_of. cbn [value_size].
  induction fields as [|[k v] fs IH]; [cbn; lia|].
  cbn [assoc]. destruct (String.eqb k (recursive_key opts)); [lia|].
  etransitivity; [exact IH|]. lia.
Qed.

Lemma search_not_weight_error toks full :
  existsb bad_key (keys opts) = false ->
  forall n v, (value_size v < n)%nat -> not_weight_error (_search toks full v).
Proof.
  intros Hk. induction n as [|n IH]; intros v Hn; [lia|].
  destruct v; try discriminate. rewrite _search_unfold.
  destruct (first_is_string l) eqn:E.
  - rewrite search_records_flat by exact E. discriminate.
  - rewrite search_records_structured by exact E.
    apply bind_not_weight_error;
      [|intros; apply bind_not_weight_error;
        [apply format_not_weight_error|discriminate]].
    unfold ranked_records. apply bind_not_weight_error;
      [|intros; apply bind_not_weight_error;
        [apply computeScore_not_weight_error|discriminate]].
    unfold collect_records. apply bind_not_weight_error; [|discriminate].
    apply foldM_not_weight_error. intros [[i w] rs] [item c] Hin.
    apply in_map_iff in Hin as (x & [= -> <-] & Hx).
    unfold record_step.
    destruct (key_loop_accepts item i toks full (keys opts) Hk (w, rs))
      as (acc' & ->). cbn [bind].
    apply bind_not_weight_error; [|discriminate].
    apply splice_not_weight_error. apply IH.
    pose proof (value_size_element _ _ Hx). pose proof (value_size_child item).
    lia.
Qed.

(** C4 (as the code has it): the weights are examined while the records
    are visited.  A search over records throws the weight error exactly
    when the collection is not empty and some configured key carries a
    weight that is at most 0 or above 1; nothing is returned then. *)
Theorem search_rejects_bad_weight (list_ : list value) (pattern : string) :
  first_is_string list_ = false ->
  search list_ pattern = Threw KeyWeightError
  <-> list_ <> [] /\ existsb bad_key (keys opts) = true.
Proof.
  intros Hf. unfold search, _prepareSearchers.
  set (toks := if tokenize opts then split pattern else []).
  split.
  - intros Hs. split.
    + intros ->. rewrite _search_unfold in Hs.
      rewrite search_records_structured in Hs by reflexivity.
      cbn in Hs. unfold _format in Hs. cbn in Hs.
      destruct (includeMatches opts && highlight_enabled opts),
        (shouldSort opts); discriminate.
    + destruct (existsb bad_key (keys opts)) eqn:E; [reflexivity|].
      exfalso. exact (search_not_weight_error toks pattern E _ _ (Nat.lt_succ_diag_r _) Hs).
  - intros [Hne Hb]. rewrite _search_unfold.
    rewrite search_records_structured by exact Hf.
    destruct list_ as [|item rest]; [congruence|].
    unfold ranked_records, collect_records. cbn [map foldM].
    unfold record_step at 1. rewrite key_loop_rejects by exact Hb. reflexivity.
Qed.

(** ** Invariants of the loops *)

Lemma bind_returned {A B} (m : outcome A) (k : A -> outcome B) (b : B) :
  bind m k = Returned b -> exists a, m = Returned a /\ k a = Returned b.
Proof. destruct m as [a|e]; cbn; [now exists a|discriminate]. Qed.

Lemma foldM_app {A B} (f : A -> B -> outcome A) (l1 l2 : list B) (a : A) :
  foldM f (l1 ++ l2) a = bind (foldM f l1 a) (foldM f l2).
Proof.
  revert a. induction l1 as [|x l1 IH]; intros a; cbn [app foldM bind];
    [reflexivity|].
  destruct (f a x) as [a'|e]; cbn [bind]; [apply IH|reflexivity].
Qed.

(** A property of the results that the string case keeps is kept by
    [_analyze] on every value. *)
Lemma analyze_invariant (P : list result -> Prop)
  (key : string) (record : value) (index : nat)
  (toks : list string) (full : string) :
  (forall s rs, P rs -> P (analyze_string key s record index toks full rs)) ->
  forall v rs, P rs -> P (_analyze key v record index toks full rs).
Proof.
  intros Hs.
  assert (H : forall n v, (value_size v < n)%nat ->
                forall rs, P rs -> P (_analyze key v record index toks full rs)).
  { induction n as [|n IH]; intros v Hn rs Hrs; [lia|].
    destruct v; try exact Hrs; [now apply Hs|].
    cbn [_analyze].
    assert (Hl : forall x, In x l -> (value_size x < n)%nat).
    { intros x Hx. pose proof (value_size_element _ _ Hx). lia. }
    clear Hn. revert rs Hrs. induction l as [|x l IHl]; intros rs Hrs;
      [exact Hrs|].
    apply IHl; [intros; apply Hl; now right|].
    apply IH; [apply Hl; now left|exact Hrs]. }
  intros v. exact (H _ v (Nat.lt_succ_diag_r _)).
Qed.

(** Entries registered under another index are left alone. *)
Lemma output_push_other index fr rs e :
  r_index e <> index -> In e rs -> In e (output_push index fr rs).
Proof.
  intros Hne. induction rs as [|r rs IH]; [intros []|].
  cbn [output_push]. destruct (Nat.eqb (r_index r) index) eqn:E.
  - intros [<-|Hin]; [apply Nat.eqb_eq in E; contradiction|now right].
  - intros [<-|Hin]; [now left|right; now apply IH].
Qed.

Lemma output_push_indices index fr rs :
  map r_index (output_push index fr rs) = map r_index rs.
Proof.
  induction rs as [|r rs IH]; [reflexivity|]. cbn [output_push].
  destruct (Nat.eqb (r_index r) index); cbn [map r_index]; [reflexivity|].
  now rewrite IH.
Qed.

Lemma resultMap_get_none index rs :
  ~ In index (map r_index rs) -> resultMap_get index rs = None.
Proof.
  induction rs as [|r rs IH]; [reflexivity|]. cbn [map resultMap_get In].
  intros H. destruct (Nat.eqb (r_index r) index) eqn:E.
  - apply Nat.eqb_eq in E. tauto.
  - apply IH. tauto.
Qed.

Lemma analyze_indices_below key v record index toks full n rs :
  (index < n)%nat -> indices_below n rs ->
  indices_below n (_analyze key v record index toks full rs).
Proof.
  intros Hi. apply analyze_invariant. clear rs. intros s rs Hrs.
  unfold analyze_string. destruct (token_pass s toks) as [[e k] avg].
  match goal with |- context [if ?c then _ else _] => destruct c end;
    [|exact Hrs].
  destruct (resultMap_get index rs).
  - unfold indices_below. now rewrite output_push_indices.
  - intros j. rewrite map_app, in_app_iff. cbn. intros [H|[<-|[]]];
      [now apply Hrs|exact Hi].
Qed.

Lemma analyze_keeps_other key v record index toks full e rs :
  r_index e <> index -> In e rs ->
  In e (_analyze key v record index toks full rs).
Proof.
  intros Hne. apply analyze_invariant. clear rs. intros s rs Hrs.
  unfold analyze_string. destruct (token_pass s toks) as [[x k] avg].
  match goal with |- context [if ?c then _ else _] => destruct c end;
    [|exact Hrs].
  destruct (resultMap_get index rs).
  - now apply output_push_other.
  - apply in_app_iff. now left.
Qed.

Lemma key_loop_invariant (P : list result -> Prop) item i toks full :
  (forall k rs, P rs -> P (_analyze k (getFn item k) item i toks full rs)) ->
  forall ks w rs w' rs',
    foldM (key_step item i toks full) ks (w, rs) = Returned (w', rs') ->
    P rs -> P rs'.
Proof.
  intros HP. induction ks as [|k ks IH]; intros w rs w' rs'; cbn [foldM].
  - now intros [= <- <-].
  - intros H Hrs. apply bind_returned in H as ([w1 rs1] & Hstep & Hrest).
    apply (IH _ _ _ _ Hrest). unfold key_step in Hstep.
    destruct k as [name|name wt].
    + injection Hstep as <- <-. now apply HP.
    + destruct (weight_rejected wt); [discriminate|].
      injection Hstep as <- <-. now apply HP.
Qed.

Lemma result_replace_other index r' rs e :
  r_index e <> index -> In e rs -> In e (result_replace index r' rs).
Proof.
  intros Hne. induction rs as [|r rs IH]; [intros []|].
  cbn [result_replace]. destruct (Nat.eqb (r_index r) index) eqn:E.
  - intros [<-|Hin]; [apply Nat.eqb_eq in E; contradiction|now right].
  - intros [<-|Hin]; [now left|right; now apply IH].
Qed.

Lemma result_replace_indices index r' rs :
  r_index r' = index ->
  map r_index (result_replace index r' rs) = map r_index rs.
Proof.
  intros Hi. induction rs as [|r rs IH]; [reflexivity|]. cbn [result_replace].
  destruct (Nat.eqb (r_index r) index) eqn:E; cbn [map].
  - apply Nat.eqb_eq in E. congruence.
  - now rewrite IH.
Qed.

Lemma result_replace_in index r' rs r :
  resultMap_get index rs = Some r -> In r' (result_replace index r' rs).
Proof.
  induction rs as [|r0 rs IH]; [discriminate|].
  cbn [resultMap_get result_replace].
  destruct (Nat.eqb (r_index r0) index); [now left|].
  intros H. right. now apply IH.
Qed.

Lemma resultMap_get_some index rs r :
  resultMap_get index rs = Some r -> In r rs /\ r_index r = index.
Proof.
  induction rs as [|r0 rs IH]; [discriminate|]. cbn [resultMap_get].
  destruct (Nat.eqb (r_index r0) index) eqn:E.
  - intros [= <-]. apply Nat.eqb_eq in E. split; [now left|exact E].
  - intros H. destruct (IH H). split; [now right|assumption].
Qed.

(** What the recursion block leaves when it returns. *)
Lemma splice_children_cases item i c rs rs' :
  splice_children item i c rs = Returned rs' ->
  rs' = rs
  \/ (exists r children,
        resultMap_get i rs = Some r /\ c = Returned children
        /\ rs' = result_replace i
                   (Result (r_index r)
                      (assign_key (r_item r) (recursive_key opts) children)
                      (r_output r) (r_score r)) rs)
  \/ (exists children,
        resultMap_get i rs = None /\ c = Returned children
        /\ rs' = rs ++ [Result i (assign_key item (recursive_key opts) children)
                               [] None]).
Proof.
  unfold splice_children. destruct (recursive_enabled opts);
    [|intros [= <-]; now left].
  intros H. apply bind_returned in H as (sub & _ & H).
  destruct sub as [| | | | |[|x xs]|]; try (injection H as <-; now left).
  apply bind_returned in H as (children & -> & H).
  destruct (resultMap_get i rs) as [r|] eqn:E.
  - injection H as <-. right. left. now exists r, children.
  - destruct (truthy_length children); injection H as <-; [|now left].
    right. right. now exists children.
Qed.

Lemma record_step_spec toks full i w rs item c st :
  record_step toks full (i, w, rs) (item, c) = Returned st ->
  indices_below i rs ->
  exists w' rs', st = (S i, w', rs') /\ indices_below (S i) rs'
    /\ forall e, r_index e <> i -> In e rs -> In e rs'.
Proof.
  unfold record_step. intros H Hb.
  apply bind_returned in H as ([w1 rs1] & Hk & H).
  apply bind_returned in H as (rs2 & Hsp & [= <-]). cbn [fst snd] in *.
  exists w1, rs2. split; [reflexivity|].
  assert (Hb1 : indices_below (S i) rs1).
  { apply (key_loop_invariant (indices_below (S i)) item i toks full)
      with (2 := Hk).
    - intros. apply analyze_indices_below; [lia|assumption].
    - intros j Hj. specialize (Hb j Hj). lia. }
  assert (Hk1 : forall e, r_index e <> i -> In e rs -> In e rs1).
  { intros e Hne. apply (key_loop_invariant (fun rs => In e rs) item i toks full)
      with (2 := Hk). intros. now apply analyze_keeps_other. }
  destruct (splice_children_cases _ _ _ _ _ Hsp)
    as [->|[(r & ch & Hget & _ & ->)|(ch & Hget & _ & ->)]].
  - split; [exact Hb1|exact Hk1].
  - destruct (resultMap_get_some _ _ _ Hget) as [_ Hi]. split.
    + unfold indices_below. now rewrite result_replace_indices.
    + intros e Hne Hin. apply result_replace_other; [exact Hne|now apply Hk1].
  - split.
    + intros j. rewrite map_app, in_app_iff. cbn.
      intros [Hj|[<-|[]]]; [now apply Hb1|lia].
    + intros e Hne Hin. apply in_app_iff. left. now apply Hk1.
Qed.

Lemma record_loop_spec toks full paired :
  forall i w rs st,
    foldM (record_step toks full) paired (i, w, rs) = Returned st ->
    indices_below i rs ->
    exists w' rs', st = ((i + length paired)%nat, w', rs')
      /\ indices_below (i + length paired) rs'
      /\ forall e, (r_index e < i)%nat -> In e rs -> In e rs'.
Proof.
  induction paired as [|[item c] paired IH]; intros i w rs st; cbn [foldM length].
  - intros [= <-] Hb. exists w, rs. rewrite Nat.add_0_r. auto.
  - intros H Hb. apply bind_returned in H as (st1 & Hstep & Hrest).
    destruct (record_step_spec _ _ _ _ _ _ _ _ Hstep Hb)
      as (w1 & rs1 & -> & Hb1 & Hk1).
    destruct (IH _ _ _ _ Hrest Hb1) as (w2 & rs2 & -> & Hb2 & Hk2).
    exists w2, rs2. replace (i + S (length paired))%nat
      with (S i + length paired)%nat by lia.
    split; [reflexivity|]. split; [exact Hb2|].
    intros e He Hin. apply Hk2; [lia|]. apply Hk1; [lia|exact Hin].
Qed.

Lemma output_push_inv index fr rs r :
  In r (output_push index fr rs) ->
  exists r0, In r0 rs /\ r_index r = r_index r0 /\ r_item r = r_item r0.
Proof.
  induction rs as [|r1 rs IH]; [intros []|]. cbn [output_push].
  destruct (Nat.eqb (r_index r1) index).
  - intros [Heq|Hin]; [exists r1; subst r|exists r]; cbn; auto.
  - intros [Heq|Hin]; [exists r1; subst r; cbn; auto|].
    destruct (IH Hin) as (r0 & H0 & H1). exists r0. cbn; auto.
Qed.

(** The entries registered under the index of a record hold that record
    as their item. *)
Lemma analyze_item key v record index toks full rs :
  (forall r, In r rs -> r_index r = index -> r_item r = record) ->
  forall r, In r (_analyze key v record index toks full rs) ->
            r_index r = index -> r_item r = record.
Proof.
  apply (analyze_invariant
           (fun rs => forall r, In r rs -> r_index r = index -> r_item r = record)).
  clear rs. intros s rs Hrs.
  unfold analyze_string. destruct (token_pass s toks) as [[x k] avg].
  match goal with |- context [if ?c then _ else _] => destruct c end;
    [|exact Hrs].
  destruct (resultMap_get index rs) as [old|].
  - intros r Hin Hi. destruct (output_push_inv _ _ _ _ Hin) as (r0 & H0 & H1 & H2).
    rewrite H2. apply Hrs; [exact H0|congruence].
  - intros r Hin Hi. apply in_app_iff in Hin as [Hin|[<-|[]]];
      [now apply Hrs|reflexivity].
Qed.

Lemma compute_one_keeps w r r' :
  compute_one w r = Returned r' ->
  r_index r' = r_index r /\ r_item r' = r_item r.
Proof.
  unfold compute_one. intros H.
  apply bind_returned in H as ([[t b] d] & _ & [= <-]). now split.
Qed.

Lemma computeScore_keeps w rs scored e :
  _computeScore w rs = Returned scored -> In e rs ->
  exists e', In e' scored /\ compute_one w e = Returned e'.
Proof.
  unfold _computeScore.
  assert (H : forall acc out,
             foldM (fun done_ r => do r' <- compute_one w r; Returned (done_ ++ [r']))
                   rs acc = Returned out ->
             (forall x, In x acc -> In x out)
             /\ (In e rs -> exists e', In e' out /\ compute_one w e = Returned e')).
  { induction rs as [|r rs IH]; intros acc out; cbn [foldM].
    - intros [= <-]. split; [auto|intros []].
    - intros H. apply bind_returned in H as (acc1 & H1 & H2).
      apply bind_returned in H1 as (r' & Hr & [= <-]).
      destruct (IH _ _ H2) as [Ha Hb]. split.
      + intros x Hx. apply Ha, in_app_iff. now left.
      + intros [<-|Hin]; [|now apply Hb].
        exists r'. split; [|exact Hr]. apply Ha, in_app_iff. right. now left. }
  intros Hs Hin. exact (proj2 (H _ _ Hs) Hin).
Qed.

Lemma sort_insert_in cmp x sorted e :
  In e (sort_insert cmp x sorted) <-> e = x \/ In e sorted.
Proof.
  induction sorted as [|y rest IH]; cbn [sort_insert In]; [intuition|].
  destruct (positive (cmp y x)); cbn [In]; [intuition|].
  rewrite IH. intuition.
Qed.

Lemma sort_in rs e : In e (_sort rs) <-> In e rs.
Proof.
  unfold _sort.
  assert (H : forall acc,
             In e (fold_left (fun sorted x => sort_insert (sortFn opts) x sorted)
                             rs acc) <-> In e acc \/ In e rs).
  { induction rs as [|r rs IH]; intros acc; cbn [fold_left In]; [intuition|].
    rewrite IH, sort_insert_in. intuition. }
  rewrite H. cbn. intuition.
Qed.

(** ** Recursion into child collections *)

Lemma assoc_set_prop_same k v fs : assoc k (set_prop k v fs) = Some v.
Proof.
  induction fs as [|[k' v'] fs IH]; cbn [set_prop assoc].
  - now rewrite String.eqb_refl.
  - destruct (String.eqb k' k) eqn:E; cbn [assoc]; rewrite E; [reflexivity|exact IH].
Qed.

Lemma assoc_set_prop_other k k' v fs :
  k' <> k -> assoc k' (set_prop k v fs) = assoc k' fs.
Proof.
  intros Hne. induction fs as [|[k0 v0] fs IH]; cbn [set_prop assoc].
  - destruct (String.eqb k k') eqn:E; [|reflexivity].
    apply String.eqb_eq in E. congruence.
  - destruct (String.eqb k0 k) eqn:E; cbn [assoc]; [|now rewrite IH].
    apply String.eqb_eq in E. subst k0.
    destruct (String.eqb k k') eqn:E'; [|reflexivity].
    apply String.eqb_eq in E'. congruence.
Qed.

Lemma assoc_not_in k fs : ~ In k (map fst fs) -> assoc k fs = None.
Proof.
  induction fs as [|[k' v'] fs IH]; [reflexivity|]. cbn [map fst In assoc].
  intros H. destruct (String.eqb k' k) eqn:E.
  - apply String.eqb_eq in E. tauto.
  - apply IH. tauto.
Qed.

(** Copying the properties of an object one by one gives an object with
    the same properties. *)
Lemma assoc_copy k fs :
  List.NoDup (map fst fs) ->
  forall acc,
    assoc k (fold_left (fun acc p => set_prop (fst p) (snd p) acc) fs acc)
    = match assoc k fs with Some v => Some v | None => assoc k acc end.
Proof.
  induction fs as [|[k1 v1] fs IH]; intros Hnd acc; [reflexivity|].
  cbn [map fst] in Hnd. apply List.NoDup_cons_iff in Hnd as [Hk1 Hnd].
  cbn [fold_left fst snd assoc]. rewrite (IH Hnd).
  destruct (String.eqb k1 k) eqn:E.
  - apply String.eqb_eq in E. subst k1. rewrite (assoc_not_in _ _ Hk1).
    apply assoc_set_prop_same.
  - destruct (assoc k fs); [reflexivity|]. apply assoc_set_prop_other.
    intros ->. now rewrite String.eqb_refl in E.
Qed.

(** [Object.assign({}, src, {[k]: v})] holds [v] under [k] and, under
    every other key, what [src] holds. *)
Lemma assign_key_frame fs k v :
  List.NoDup (map fst fs) ->
  js_get (assign_key (VObj fs) k v) k = Returned v
  /\ forall k', k' <> k ->
       js_get (assign_key (VObj fs) k v) k' = js_get (VObj fs) k'.
Proof.
  intros Hnd. unfold assign_key, js_get, own_props. split.
  - now rewrite assoc_set_prop_same.
  - intros k' Hne. rewrite assoc_set_prop_other by exact Hne.
    rewrite (assoc_copy k' fs Hnd []). now destruct (assoc k' fs).
Qed.

Lemma record_step_splices toks full i w rs fs x xs children st :
  record_step toks full (i, w, rs) (VObj fs, Returned children) = Returned st ->
  indices_below i rs ->
  recursive_enabled opts = true ->
  assoc (recursive_key opts) fs = Some (VArr (x :: xs)) ->
  truthy_length children = true ->
  exists e, In e (snd st) /\ r_index e = i
            /\ r_item e = assign_key (VObj fs) (recursive_key opts) children.
Proof.
  unfold record_step. intros H Hb Hrec Hch Htl.
  apply bind_returned in H as ([w1 rs1] & Hk & H).
  apply bind_returned in H as (rs2 & Hsp & [= <-]). cbn [fst snd] in *.
  assert (Hitem : forall r, In r rs1 -> r_index r = i -> r_item r = VObj fs).
  { apply (key_loop_invariant
             (fun rs => forall r, In r rs -> r_index r = i -> r_item r = VObj fs)
             (VObj fs) i toks full) with (2 := Hk).
    - intros k rs0. apply analyze_item.
    - intros r Hin Hi. exfalso. specialize (Hb i). rewrite <- Hi in Hb at 1.
      specialize (Hb (in_map r_index _ _ Hin)). lia. }
  unfold splice_children in Hsp. rewrite Hrec in Hsp. cbn [js_get bind] in Hsp.
  rewrite Hch in Hsp. cbn [bind] in Hsp.
  destruct (resultMap_get i rs1) as [r|] eqn:E.
  - injection Hsp as <-. destruct (resultMap_get_some _ _ _ E) as [Hin Hi].
    eexists. split; [eapply result_replace_in; exact E|]. cbn [r_index r_item].
    split; [exact Hi|]. now rewrite (Hitem r Hin Hi).
  - rewrite Htl in Hsp. injection Hsp as <-.
    eexists. split; [apply in_app_iff; right; now left|]. now split.
Qed.

(** Children that are records: with recursion enabled, a record whose
    designated field is a non-empty array for which the search of the
    children returns a non-empty list appears in the results of the parent
    search, whether or not one of its own fields matched.  Its item is a copy of the record: the designated key holds
    the results of the children and every other key holds what the record
    holds; the record itself is the one the collection was given with. *)
Theorem recursion_splices_into_copy
  (toks : list string) (full : string) (l1 l2 : list value)
  (fs : list (string * value)) (x : value) (xs : list value)
  (children v : value) :
  recursive_enabled opts = true ->
  first_is_string (l1 ++ VObj fs :: l2) = false ->
  List.NoDup (map fst fs) ->
  assoc (recursive_key opts) fs = Some (VArr (x :: xs)) ->
  _search toks full (VArr (x :: xs)) = Returned children ->
  truthy_length children = true ->
  _search toks full (VArr (l1 ++ VObj fs :: l2)) = Returned v ->
  exists ranked out r,
    ranked_records toks full
      (map (fun it => (it, _search toks full (child_of it)))
           (l1 ++ VObj fs :: l2)) = Returned ranked
    /\ _format ranked = Returned out /\ v = VArr out
    /\ In r ranked /\ r_index r = length l1
    /\ r_item r = assign_key (VObj fs) (recursive_key opts) children
    /\ js_get (r_item r) (recursive_key opts) = Returned children
    /\ (forall k, k <> recursive_key opts ->
                  js_get (r_item r) k = js_get (VObj fs) k)
    /\ js_get (VObj fs) (recursive_key opts) = Returned (VArr (x :: xs)).
Proof.
  intros Hrec Hf Hnd Hch Hsub Htl Hs.
  rewrite _search_unfold, search_records_structured in Hs by exact Hf.
  apply bind_returned in Hs as (ranked & Hr & Hs).
  apply bind_returned in Hs as (out & Hfmt & [= <-]).
  exists ranked, out.
  pose proof Hr as Hr0. unfold ranked_records in Hr.
  apply bind_returned in Hr as ([w rs] & Hc & Hr).
  apply bind_returned in Hr as (scored & Hsc & [= <-]).
  unfold collect_records in Hc.
  apply bind_returned in Hc as (st & Hloop & [= <- <-]).
  rewrite map_app, foldM_app in Hloop. cbn [map] in Hloop.
  apply bind_returned in Hloop as (st1 & H1 & H2).
  destruct (record_loop_spec _ _ _ _ _ _ _ H1) as (w1 & rs1 & -> & Hb1 & _);
    [intros j []|].
  cbn [Nat.add] in *. rewrite length_map in *.
  cbn [foldM] in H2. apply bind_returned in H2 as (st2 & Hstep & Hrest).
  assert (Hchild : child_of (VObj fs) = VArr (x :: xs))
    by (unfold child_of; now rewrite Hch).
  rewrite Hchild, Hsub in Hstep.
  destruct (record_step_splices _ _ _ _ _ _ _ _ _ _ Hstep Hb1 Hrec Hch Htl)
    as (e & Hin & Hi & Hit).
  destruct (record_step_spec _ _ _ _ _ _ _ _ Hstep Hb1)
    as (w2 & rs2 & -> & Hb2 & _). cbn [snd] in Hin.
  destruct (record_loop_spec _ _ _ _ _ _ _ Hrest Hb2) as (w3 & rs3 & -> & _ & Hk3).
  cbn [fst snd] in Hsc.
  assert (Hin3 : In e rs3) by (apply Hk3; [lia|exact Hin]).
  destruct (computeScore_keeps _ _ _ _ Hsc Hin3) as (e' & Hin' & Hc').
  destruct (compute_one_keeps _ _ _ Hc') as [Hi' Hit'].
  destruct (assign_key_frame fs (recursive_key opts) children Hnd) as [Hg Hfr].
  exists e'. split; [exact Hr0|]. split; [exact Hfmt|]. split; [reflexivity|].
  split; [destruct (shouldSort opts); [now apply sort_in|exact Hin']|].
  split; [congruence|]. rewrite Hit', Hit.
  repeat split; [exact Hg|exact Hfr|]. cbn [js_get]. now rewrite Hch.
Qed.

(** ** Sorting *)

Lemma sort_insert_sorted (x : result) (sorted : list result) :
  scored x -> Forall scored sorted ->
  StronglySorted score_le sorted ->
  StronglySorted score_le (sort_insert default_sortFn x sorted).
Proof.
  intros [qx Hx] Hall Hs. induction Hs as [|y rest Hrest IH Hy];
    cbn [sort_insert]; [repeat constructor|].
  apply Forall_cons_iff in Hall as [[qy Hqy] Hall].
  unfold default_sortFn at 1. rewrite Hqy, Hx. cbn [positive].
  destruct (Qle_bool (qy - qx) 0) eqn:E; cbn [negb].
  - apply Qle_bool_iff in E. constructor; [now apply IH|].
    apply List.Forall_forall. intros z Hz. apply sort_insert_in in Hz as [->|Hz].
    + unfold score_le. rewrite Hqy, Hx. lra.
    + rewrite List.Forall_forall in Hy. now apply Hy.
  - assert (Hlt : qx < qy).
    { destruct (Qlt_le_dec qx qy) as [H|H]; [exact H|].
      assert (C : qy - qx <= 0) by lra. apply Qle_bool_iff in C. congruence. }
    constructor; [now constructor|]. constructor.
    + unfold score_le. rewrite Hqy, Hx. lra.
    + rewrite List.Forall_forall in Hy |- *. intros z Hz. specialize (Hy z Hz).
      unfold score_le in *. rewrite Hx. rewrite Hqy in Hy.
      destruct (r_score z) as [[qz|]|]; try contradiction. lra.
Qed.

(** With the default comparator, results whose aggregates are all numbers
    come out in ascending order of aggregate. *)
Lemma sort_sorted (rs : list result) :
  sortFn opts = default_sortFn -> Forall scored rs ->
  StronglySorted score_le (_sort rs).
Proof.
  intros Hcmp. unfold _sort. rewrite Hcmp.
  assert (H : forall acc, Forall scored acc -> StronglySorted score_le acc ->
             Forall scored rs ->
             StronglySorted score_le
               (fold_left (fun sorted x => sort_insert default_sortFn x sorted)
                          rs acc)).
  { induction rs as [|r rs IH]; intros acc Hacc Hs Hrs; [exact Hs|].
    apply Forall_cons_iff in Hrs as [Hr Hrs]. cbn [fold_left].
    apply IH; [|now apply sort_insert_sorted|exact Hrs].
    apply List.Forall_forall. intros z Hz. apply sort_insert_in in Hz as [->|Hz];
      [exact Hr|]. rewrite List.Forall_forall in Hacc. now apply Hacc. }
  apply H; constructor.
Qed.

(** The aggregate of a result with at least one field is a number. *)
Lemma compute_one_scored w r r' :
  compute_one w r = Returned r' -> r_output r <> [] -> scored r'.
Proof.
  unfold compute_one. intros H Hne.
  apply bind_returned in H as ([[t b] d] & _ & [= <-]). unfold scored.
  cbn [r_score]. destruct (Qeq_bool b 1); [|now eexists].
  destruct (r_output r); [contradiction|]. cbn [length mean_over]. now eexists.
Qed.

Lemma computeScore_from w rs out e' :
  _computeScore w rs = Returned out -> In e' out ->
  exists e, In e rs /\ compute_one w e = Returned e'.
Proof.
  unfold _computeScore.
  assert (H : forall acc out,
             foldM (fun done_ r => do r' <- compute_one w r; Returned (done_ ++ [r']))
                   rs acc = Returned out ->
             In e' out ->
             In e' acc \/ exists e, In e rs /\ compute_one w e = Returned e').
  { induction rs as [|r rs IH]; intros acc out0; cbn [foldM].
    - intros [= <-]. now left.
    - intros H Hin. apply bind_returned in H as (acc1 & H1 & H2).
      apply bind_returned in H1 as (r' & Hr & [= <-]).
      destruct (IH _ _ H2 Hin) as [Ha|(e & He & Hc)].
      + apply in_app_iff in Ha as [Ha|[<-|[]]]; [now left|].
        right. exists r. split; [now left|exact Hr].
      + right. exists e. split; [now right|exact Hc]. }
  intros Hs Hin. destruct (H _ _ Hs Hin) as [[]|Hex]. exact Hex.
Qed.

Lemma output_push_has_output index fr rs :
  Forall has_output rs -> Forall has_output (output_push index fr rs).
Proof.
  induction 1 as [|r rs Hr Hrs IH]; cbn [output_push]; [constructor|].
  destruct (Nat.eqb (r_index r) index); constructor; try assumption.
  unfold has_output. cbn. now destruct (r_output r).
Qed.

Lemma analyze_has_output key v record index toks full rs :
  Forall has_output rs ->
  Forall has_output (_analyze key v record index toks full rs).
Proof.
  apply analyze_invariant. clear rs. intros s rs Hrs.
  unfold analyze_string. destruct (token_pass s toks) as [[x k] avg].
  match goal with |- context [if ?c then _ else _] => destruct c end;
    [|exact Hrs].
  destruct (resultMap_get index rs).
  - now apply output_push_has_output.
  - apply Forall_app. split; [exact Hrs|]. repeat constructor. discriminate.
Qed.

Lemma record_loop_has_output toks full paired :
  recursive_enabled opts = false ->
  forall i w rs st,
    foldM (record_step toks full) paired (i, w, rs) = Returned st ->
    Forall has_output rs -> Forall has_output (snd st).
Proof.
  intros Hrec. induction paired as [|[item c] paired IH]; intros i w rs st;
    cbn [foldM].
  - now intros [= <-].
  - intros H Hrs. apply bind_returned in H as (st1 & Hstep & Hrest).
    unfold record_step in Hstep.
    apply bind_returned in Hstep as ([w1 rs1] & Hk & Hstep).
    apply bind_returned in Hstep as (rs2 & Hsp & [= <-]).
    unfold splice_children in Hsp. rewrite Hrec in Hsp. injection Hsp as <-.
    apply (IH _ _ _ _ Hrest). cbn [snd].
    apply (key_loop_invariant (Forall has_output) item i toks full) with (2 := Hk);
      [|exact Hrs].
    intros. now apply analyze_has_output.
Qed.

(** Without recursion every result has a matched field, so with
    [shouldSort] and the default comparator the results reach [_format] in
    ascending order of aggregate. *)
Theorem ranked_sorted_without_recursion toks full paired ranked :
  recursive_enabled opts = false ->
  shouldSort opts = true -> sortFn opts = default_sortFn ->
  ranked_records toks full paired = Returned ranked ->
  StronglySorted score_le ranked.
Proof.
  intros Hrec Hsort Hcmp H. unfold ranked_records in H.
  apply bind_returned in H as ([w rs] & Hc & H).
  apply bind_returned in H as (sc & Hsc & [= <-]). rewrite Hsort.
  apply sort_sorted; [exact Hcmp|].
  unfold collect_records in Hc.
  apply bind_returned in Hc as (st & Hloop & [= <- <-]).
  pose proof (record_loop_has_output _ _ _ Hrec _ _ _ _ Hloop (List.Forall_nil _)) as Ho.
  apply List.Forall_forall. intros e' Hin. cbn [fst snd] in Hsc.
  destruct (computeScore_from _ _ _ _ Hsc Hin) as (e & He & Hce).
  apply (compute_one_scored _ _ _ Hce).
  rewrite List.Forall_forall in Ho. now apply Ho.
Qed.

(** ** The empty collection *)

(** A search over the empty collection returns the empty list, whatever
    the options and the pattern. *)
Theorem search_empty_collection (pattern : string) :
  search [] pattern = Returned (VArr []).
Proof.
  unfold search, _prepareSearchers. rewrite _search_unfold.
  unfold search_records, ranked_records, collect_records, _format.
  cbn. destruct (shouldSort opts), (includeMatches opts && highlight_enabled opts);
    reflexivity.
Qed.

(** ** What [_sort] and [_computeScore] keep *)

Lemma sort_insert_permutation cmp x sorted :
  Permutation (sort_insert cmp x sorted) (x :: sorted).
Proof.
  induction sorted as [|y rest IH]; cbn [sort_insert]; [reflexivity|].
  destruct (positive (cmp y x)); [reflexivity|].
  rewrite IH. apply perm_swap.
Qed.

Lemma sort_perm (rs : list result) : Permutation (_sort rs) rs.
Proof.
  unfold _sort.
  assert (H : forall acc,
             Permutation
               (fold_left (fun sorted x => sort_insert (sortFn opts) x sorted)
                          rs acc) (acc ++ rs)).
  { induction rs as [|r rs IH]; intros acc; cbn [fold_left].
    - now rewrite app_nil_r.
    - rewrite IH, sort_insert_permutation.
      change (r :: acc) with ([r] ++ acc).
      rewrite (Permutation_app_comm [r] acc), <- app_assoc. reflexivity. }
  apply (H []).
Qed.

(** Sorting reorders the results and nothing else: whatever the
    comparator, the sorted list is a permutation of the list given. *)
Theorem sort_permutation (rs : list result) : Permutation (_sort rs) rs.
Proof. apply sort_perm. Qed.


Lemma score_loop_core (weights : option (gmap string Q))
  (output : list field_result) :
  forall t b d t' b' d',
    foldM (score_step weights) output (t, b, d) = Returned (t', b', d') ->
    map field_core d' = map field_core d ++ map field_core output.
Proof.
  induction output as [|fr out IH]; intros t b d t' b' d'; cbn [foldM].
  - intros [= _ _ <-]. now rewrite app_nil_r.
  - intros H. apply bind_returned in H as ([[t1 b1] d1] & Hstep & Hrest).
    rewrite (IH _ _ _ _ _ _ Hrest). unfold score_step in Hstep.
    apply bind_returned in Hstep as (x & _ & Hstep).
    destruct (negb (Qeq_bool x 1)); injection Hstep as _ _ <-;
      rewrite map_app, <- app_assoc; reflexivity.
Qed.

Lemma computeScore_shape (weights : option (gmap string Q))
  (rs out : list result) :
  _computeScore weights rs = Returned out ->
  Forall2 same_but_scores rs out.
Proof.
  unfold _computeScore.
  assert (H : forall acc out0,
             foldM (fun done_ r => do r' <- compute_one weights r;
                                   Returned (done_ ++ [r'])) rs acc
             = Returned out0 ->
             exists new, out0 = acc ++ new /\ Forall2 same_but_scores rs new).
  { induction rs as [|r rs IH]; intros acc out0; cbn [foldM].
    - intros [= <-]. exists []. rewrite app_nil_r. split; [reflexivity|constructor].
    - intros H. apply bind_returned in H as (acc1 & H1 & H2).
      apply bind_returned in H1 as (r' & Hr & [= <-]).
      destruct (IH _ _ H2) as (new & -> & Hnew).
      exists (r' :: new). rewrite <- app_assoc. split; [reflexivity|].
      constructor; [|exact Hnew]. unfold compute_one in Hr.
      apply bind_returned in Hr as ([[t b] d] & Hloop & [= <-]).
      unfold same_but_scores. cbn [r_index r_item r_output].
      repeat split. now rewrite (score_loop_core _ _ _ _ _ _ _ _ Hloop). }
  intros Hs. destruct (H _ _ Hs) as (new & -> & Hnew). exact Hnew.
Qed.

(** [_computeScore] writes scores and nothing else: the results it
    returns are the results given, in the same order, each with the same
    item and the same keys, field scores and indices in its [output]. *)
Theorem computeScore_keeps_results (weights : option (gmap string Q))
  (rs out : list result) :
  _computeScore weights rs = Returned out ->
  Forall2 same_but_scores rs out.
Proof. apply computeScore_shape. Qed.

(** ** Which texts are recorded *)

Lemma filter_all_length {A} (f : A -> bool) (l : list A) :
  Nat.leb (length l) (length (List.filter f l)) = forallb f l.
Proof.
  induction l as [|x l IH]; [reflexivity|]. cbn [List.filter forallb length].
  destruct (f x) eqn:E; cbn [length andb].
  - exact IH.
  - apply Nat.leb_gt. pose proof (List.filter_length_le f l). lia.
Qed.

(** A text is recorded exactly when the full text matches or (with
    [tokenize]) some query token hits one of its words, and, with
    [tokenize] and [matchAllTokens], every query token hits one of its
    words; it is recorded once, with the final score and the indices of the
    full-text match. *)
Theorem analyze_string_included
  (key value_ : string) (record : value) (index : nat)
  (tokenSearchers : list string) (fullSearcher : string)
  (results : list result) :
  analyze_string key value_ record index tokenSearchers fullSearcher results
  = if text_included value_ tokenSearchers fullSearcher
    then record_field index record
           (FieldResult key
              (finalScore (Bitap_search fullSearcher value_)
                          (snd (token_pass value_ tokenSearchers)))
              (matchedIndices (Bitap_search fullSearcher value_)) None)
           results
    else results.
Proof.
  unfold analyze_string, text_included, token_pass, record_field.
  destruct (tokenize opts); cbn [andb orb].
  - rewrite token_loop. cbn [orb Nat.add snd].
    now rewrite filter_all_length.
  - reflexivity.
Qed.

(** ** What the results hold *)

Lemma output_push_field index fr rs r fr' :
  In r (output_push index fr rs) -> In fr' (r_output r) ->
  fr' = fr \/ exists r0, In r0 rs /\ In fr' (r_output r0).
Proof.
  induction rs as [|r1 rs IH]; [intros []|]. cbn [output_push].
  destruct (Nat.eqb (r_index r1) index).
  - intros [Heq|Hin] Hfr.
    + subst r. cbn [r_output] in Hfr. apply in_app_iff in Hfr as [Hfr|[<-|[]]];
        [right; exists r1; split; [now left|exact Hfr]|now left].
    + right. exists r. split; [now right|exact Hfr].
  - intros [Heq|Hin] Hfr.
    + subst r. right. exists r1. split; [now left|exact Hfr].
    + destruct (IH Hin Hfr) as [->|(r0 & H0 & H1)]; [now left|].
      right. exists r0. split; [now right|exact H1].
Qed.

Lemma analyze_keyed
  (P : string -> Prop) (key : string) (v record : value) (index : nat)
  (toks : list string) (full : string) (rs : list result) :
  P key ->
  (forall r fr, In r rs -> In fr (r_output r) -> P (fr_key fr)) ->
  forall r fr,
    In r (_analyze key v record index toks full rs) ->
    In fr (r_output r) -> P (fr_key fr).
Proof.
  intros HP. apply (analyze_invariant
    (fun rs => forall r fr, In r rs -> In fr (r_output r) -> P (fr_key fr))).
  clear rs. intros s rs Hrs.
  unfold analyze_string. destruct (token_pass s toks) as [[x k] avg].
  match goal with |- context [if ?c then _ else _] => destruct c end;
    [|exact Hrs].
  destruct (resultMap_get index rs) as [old|].
  - intros r fr Hin Hfr.
    destruct (output_push_field _ _ _ _ _ Hin Hfr) as [->|(r0 & H0 & H1)];
      [exact HP|exact (Hrs _ _ H0 H1)].
  - intros r fr Hin Hfr. apply in_app_iff in Hin as [Hin|[<-|[]]];
      [exact (Hrs _ _ Hin Hfr)|].
    cbn [r_output] in Hfr. destruct Hfr as [<-|[]]. exact HP.
Qed.



(** ** When the search returns *)

Lemma result_replace_inv index r' rs r :
  In r (result_replace index r' rs) -> r = r' \/ In r rs.
Proof.
  induction rs as [|r0 rs IH]; [intros []|]. cbn [result_replace].
  destruct (Nat.eqb (r_index r0) index).
  - intros [<-|Hin]; [now left|right; now right].
  - intros [<-|Hin]; [right; now left|].
    destruct (IH Hin); [now left|right; now right].
Qed.

Lemma keys_weighted_insert (w : gmap string Q) k x rs :
  keys_weighted w rs -> keys_weighted (<[k := x]> w) rs.
Proof.
  intros H r fr Hr Hfr. destruct (H r fr Hr Hfr) as [y Hy].
  destruct (decide (k = fr_key fr)) as [->|Hne].
  - exists x. apply lookup_insert_eq.
  - exists y. now rewrite lookup_insert_ne.
Qed.

Lemma analyze_weighted (w : gmap string Q) key x v record index toks full rs :
  keys_weighted w rs ->
  keys_weighted (<[key := x]> w) (_analyze key v record index toks full rs).
Proof.
  intros H. unfold keys_weighted.
  apply (analyze_keyed (fun k => exists y : Q, <[key := x]> w !! k = Some y)
           key v record index toks full rs).
  - exists x. apply lookup_insert_eq.
  - now apply keys_weighted_insert.
Qed.

Lemma key_loop_weighted item i toks full ks :
  forall w rs w' rs',
    foldM (key_step item i toks full) ks (w, rs) = Returned (w', rs') ->
    keys_weighted w rs -> keys_weighted w' rs'.
Proof.
  induction ks as [|k ks IH]; intros w rs w' rs'; cbn [foldM].
  - now intros [= <- <-].
  - intros H Hw. apply bind_returned in H as ([w1 rs1] & Hstep & Hrest).
    apply (IH _ _ _ _ Hrest). unfold key_step in Hstep.
    destruct k as [name|name wt].
    + injection Hstep as <- <-. now apply analyze_weighted.
    + destruct (weight_rejected wt); [discriminate|].
      injection Hstep as <- <-. now apply analyze_weighted.
Qed.

Lemma splice_weighted (w : gmap string Q) item i c rs rs' :
  splice_children item i c rs = Returned rs' ->
  keys_weighted w rs -> keys_weighted w rs'.
Proof.
  intros Hsp Hw.
  destruct (splice_children_cases _ _ _ _ _ Hsp)
    as [->|[(r & ch & Hget & _ & ->)|(ch & Hget & _ & ->)]]; [exact Hw| |].
  - intros r0 fr Hin Hfr. destruct (result_replace_inv _ _ _ _ Hin) as [->|Hin'].
    + cbn [r_output] in Hfr.
      exact (Hw r fr (proj1 (resultMap_get_some _ _ _ Hget)) Hfr).
    + exact (Hw r0 fr Hin' Hfr).
  - intros r0 fr Hin Hfr. apply in_app_iff in Hin as [Hin|[<-|[]]];
      [exact (Hw r0 fr Hin Hfr)|destruct Hfr].
Qed.

Lemma record_loop_weighted toks full paired :
  forall i w rs st,
    foldM (record_step toks full) paired (i, w, rs) = Returned st ->
    keys_weighted w rs -> keys_weighted (snd (fst st)) (snd st).
Proof.
  induction paired as [|[item c] paired IH]; intros i w rs st; cbn [foldM].
  - now intros [= <-].
  - intros H Hw. apply bind_returned in H as (st1 & Hstep & Hrest).
    unfold record_step in Hstep.
    apply bind_returned in Hstep as ([w1 rs1] & Hk & Hstep).
    apply bind_returned in Hstep as (rs2 & Hsp & [= <-]).
    apply (IH _ _ _ _ Hrest). cbn [fst snd] in *.
    apply (splice_weighted _ _ _ _ _ _ Hsp).
    exact (key_loop_weighted _ _ _ _ _ _ _ _ _ Hk Hw).
Qed.







(** ** Results and records *)

Lemma resultMap_get_none_inv index rs :
  resultMap_get index rs = None -> ~ In index (map r_index rs).
Proof.
  induction rs as [|r rs IH]; [intros _ []|]. cbn [resultMap_get map In].
  destruct (Nat.eqb (r_index r) index) eqn:E; [discriminate|].
  apply Nat.eqb_neq in E. intros H [Hx|Hx]; [contradiction|now apply IH].
Qed.

Lemma sorted_snoc (l : list nat) (i : nat) :
  StronglySorted lt l -> (forall j, In j l -> (j < i)%nat) ->
  StronglySorted lt (l ++ [i]).
Proof.
  induction 1 as [|x l Hl IH Hx]; intros Hb; cbn [app].
  - repeat constructor.
  - constructor; [apply IH; intros; apply Hb; now right|].
    apply List.Forall_forall. intros j Hj. apply in_app_iff in Hj as [Hj|[<-|[]]].
    + rewrite List.Forall_forall in Hx. now apply Hx.
    + apply Hb. now left.
Qed.

Lemma record_field_ordered i record fr rs :
  ordered_upto i rs -> ordered_upto i (record_field i record fr rs).
Proof.
  intros [Hs Hb]. unfold record_field, ordered_upto, indices_below.
  destruct (resultMap_get i rs) eqn:E.
  - rewrite output_push_indices. now split.
  - apply resultMap_get_none_inv in E. rewrite map_app. cbn [map r_index].
    assert (Hlt : forall j, In j (map r_index rs) -> (j < i)%nat).
    { intros j Hj. specialize (Hb j Hj).
      assert (j <> i) by (intros ->; contradiction). lia. }
    split; [now apply sorted_snoc|].
    intros j Hj. apply in_app_iff in Hj as [Hj|[<-|[]]]; [now apply Hb|lia].
Qed.

(** The string case leaves the results as they are or records one field
    result carrying the key. *)
Lemma analyze_string_cases key s record index toks full rs :
  analyze_string key s record index toks full rs = rs
  \/ exists fr, fr_key fr = key
      /\ analyze_string key s record index toks full rs
         = record_field index record fr rs.
Proof.
  unfold analyze_string, record_field.
  destruct (token_pass s toks) as [[x k] avg].
  match goal with |- context [if ?c then _ else _] => destruct c end;
    [|now left].
  right. eexists. split; [|reflexivity]. reflexivity.
Qed.

Lemma analyze_ordered key v record i toks full rs :
  ordered_upto i rs -> ordered_upto i (_analyze key v record i toks full rs).
Proof.
  apply analyze_invariant. clear rs. intros s rs Hrs.
  destruct (analyze_string_cases key s record i toks full rs)
    as [->|(fr & _ & ->)]; [exact Hrs|].
  now apply record_field_ordered.
Qed.

Lemma record_step_ordered toks full i w rs item c st :
  record_step toks full (i, w, rs) (item, c) = Returned st ->
  ordered_upto i rs -> ordered_upto i (snd st).
Proof.
  unfold record_step. intros H Ho.
  apply bind_returned in H as ([w1 rs1] & Hk & H).
  apply bind_returned in H as (rs2 & Hsp & [= <-]). cbn [fst snd] in *.
  assert (Ho1 : ordered_upto i rs1).
  { apply (key_loop_invariant (ordered_upto i) item i toks full) with (2 := Hk);
      [|exact Ho]. intros. now apply analyze_ordered. }
  destruct (splice_children_cases _ _ _ _ _ Hsp)
    as [->|[(r & ch & Hget & _ & ->)|(ch & Hget & _ & ->)]]; [exact Ho1| |].
  - destruct (resultMap_get_some _ _ _ Hget) as [_ Hi].
    unfold ordered_upto, indices_below.
    now rewrite result_replace_indices.
  - pose proof (record_field_ordered i
                  (assign_key item (recursive_key opts) ch)
                  (FieldResult EmptyString 0 [] None) rs1 Ho1) as Hf.
    unfold record_field in Hf. rewrite Hget in Hf.
    destruct Hf as [Hs Hb]. unfold ordered_upto, indices_below in *.
    rewrite map_app in *. now split.
Qed.

Lemma record_loop_ordered toks full paired :
  forall i w rs st,
    foldM (record_step toks full) paired (i, w, rs) = Returned st ->
    StronglySorted lt (map r_index rs) -> indices_below i rs ->
    StronglySorted lt (map r_index (snd st)).
Proof.
  induction paired as [|[item c] paired IH]; intros i w rs st; cbn [foldM].
  - now intros [= <-].
  - intros H Hs Hb. apply bind_returned in H as (st1 & Hstep & Hrest).
    destruct (record_step_spec _ _ _ _ _ _ _ _ Hstep Hb)
      as (w1 & rs1 & -> & Hb1 & _).
    apply (IH _ _ _ _ Hrest); [|exact Hb1].
    refine (proj1 (record_step_ordered _ _ _ _ _ _ _ _ Hstep _)).
    split; [exact Hs|]. intros j Hj. specialize (Hb j Hj). lia.
Qed.

(** The results are collected in the order of the collection, at most one
    per record: their positions are strictly ascending and within the
    collection, however many keys or array elements of a record match. *)
Theorem collect_one_result_per_record toks full paired weights rs :
  collect_records toks full paired = Returned (weights, rs) ->
  StronglySorted lt (map r_index rs)
  /\ forall r, In r rs -> (r_index r < length paired)%nat.
Proof.
  unfold collect_records. intros H.
  apply bind_returned in H as (st & Hloop & [= _ <-]). split.
  - apply (record_loop_ordered _ _ _ _ _ _ _ Hloop); [constructor|intros ? []].
  - destruct (record_loop_spec _ _ _ _ _ _ _ Hloop) as (w' & rs' & -> & Hb & _);
      [intros ? []|].
    intros r Hr. apply (Hb (r_index r)). now apply in_map.
Qed.

Lemma record_field_registered paired i item c fr rs :
  nth_error paired i = Some (item, c) ->
  (forall r, In r rs -> registered paired r) ->
  forall r, In r (record_field i item fr rs) -> registered paired r.
Proof.
  intros Hn Hrs r. unfold record_field. destruct (resultMap_get i rs) as [old|].
  - intros Hin. destruct (output_push_inv _ _ _ _ Hin) as (r1 & H1 & Hi & Hit).
    destruct (Hrs r1 H1) as (rec & c0 & Hnth & Hitem).
    exists rec, c0. rewrite Hi, Hit. now split.
  - intros Hin. apply in_app_iff in Hin as [Hin|[<-|[]]]; [now apply Hrs|].
    exists item, c. split; [exact Hn|now left].
Qed.

Lemma analyze_registered paired key v i item c toks full rs :
  nth_error paired i = Some (item, c) ->
  (forall r, In r rs -> registered paired r) ->
  forall r, In r (_analyze key v item i toks full rs) -> registered paired r.
Proof.
  intros Hn. apply (analyze_invariant (fun rs => forall r, In r rs -> registered paired r)).
  clear rs. intros s rs Hrs.
  destruct (analyze_string_cases key s item i toks full rs)
    as [->|(fr & _ & ->)]; [exact Hrs|].
  now apply (record_field_registered paired i item c).
Qed.

Lemma splice_disabled item i c rs rs' :
  splice_children item i c rs = Returned rs' ->
  recursive_enabled opts = false -> rs' = rs.
Proof.
  unfold splice_children. intros H E. rewrite E in H. now injection H.
Qed.

Lemma record_step_registered paired toks full i w rs item c st :
  record_step toks full (i, w, rs) (item, c) = Returned st ->
  nth_error paired i = Some (item, c) ->
  indices_below i rs ->
  (forall r, In r rs -> registered paired r) ->
  forall r, In r (snd st) -> registered paired r.
Proof.
  unfold record_step. intros H Hn Hb Hrs.
  apply bind_returned in H as ([w1 rs1] & Hk & H).
  apply bind_returned in H as (rs2 & Hsp & [= <-]). cbn [fst snd] in *.
  assert (Hrs1 : forall r, In r rs1 -> registered paired r).
  { apply (key_loop_invariant (fun rs => forall r, In r rs -> registered paired r)
             item i toks full) with (2 := Hk); [|exact Hrs].
    intros k rs0. now apply (analyze_registered paired k _ i item c). }
  assert (Hitem : forall r, In r rs1 -> r_index r = i -> r_item r = item).
  { apply (key_loop_invariant
             (fun rs => forall r, In r rs -> r_index r = i -> r_item r = item)
             item i toks full) with (2 := Hk).
    - intros k rs0. apply analyze_item.
    - intros r Hin Hi. exfalso. specialize (Hb i). rewrite <- Hi in Hb at 1.
      specialize (Hb (in_map r_index _ _ Hin)). lia. }
  destruct (recursive_enabled opts) eqn:Hrec;
    [|now rewrite (splice_disabled _ _ _ _ _ Hsp Hrec)].
  destruct (splice_children_cases _ _ _ _ _ Hsp)
    as [->|[(r & ch & Hget & Hc & ->)|(ch & Hget & Hc & ->)]]; [exact Hrs1| |].
  - destruct (resultMap_get_some _ _ _ Hget) as [Hin Hi].
    intros r0 Hr0. destruct (result_replace_inv _ _ _ _ Hr0) as [->|Hr0'];
      [|now apply Hrs1].
    exists item, c. cbn [r_index r_item]. rewrite Hi. split; [exact Hn|].
    right. split; [exact Hrec|]. exists ch. split; [exact Hc|].
    now rewrite (Hitem r Hin Hi).
  - intros r0 Hr0. apply in_app_iff in Hr0 as [Hr0|[<-|[]]]; [now apply Hrs1|].
    exists item, c. split; [exact Hn|]. right. split; [exact Hrec|].
    exists ch. now split.
Qed.

Lemma record_loop_registered toks full (done_ paired : list (value * outcome value)) :
  forall w rs st,
    foldM (record_step toks full) paired (length done_, w, rs) = Returned st ->
    indices_below (length done_) rs ->
    (forall r, In r rs -> registered (done_ ++ paired) r) ->
    forall r, In r (snd st) -> registered (done_ ++ paired) r.
Proof.
  revert done_. induction paired as [|[item c] paired IH]; intros done_ w rs st;
    cbn [foldM].
  - now intros [= <-].
  - intros H Hb Hrs. apply bind_returned in H as (st1 & Hstep & Hrest).
    destruct (record_step_spec _ _ _ _ _ _ _ _ Hstep Hb)
      as (w1 & rs1 & -> & Hb1 & _).
    assert (Hn : nth_error (done_ ++ (item, c) :: paired) (length done_)
                 = Some (item, c))
      by (rewrite nth_error_app2, Nat.sub_diag by lia; reflexivity).
    pose proof (record_step_registered _ _ _ _ _ _ _ _ _ Hstep Hn Hb Hrs) as Hrs1.
    cbn [snd] in Hrs1.
    replace (done_ ++ (item, c) :: paired) with ((done_ ++ [(item, c)]) ++ paired)
      in * by (rewrite <- app_assoc; reflexivity).
    apply (IH (done_ ++ [(item, c)]) w1 rs1 st); rewrite ?length_app; cbn [length];
      rewrite ?Nat.add_1_r; assumption.
Qed.

Lemma sorted_lt_nodup (l : list nat) : StronglySorted lt l -> List.NoDup l.
Proof.
  induction 1 as [|x l Hl IH Hx]; constructor; [|exact IH].
  intros Hin. rewrite List.Forall_forall in Hx. specialize (Hx x Hin). lia.
Qed.

Lemma same_but_scores_indices rs out :
  Forall2 same_but_scores rs out -> map r_index out = map r_index rs.
Proof.
  induction 1 as [|r r' rs out (Hi & _) _ IH]; [reflexivity|].
  cbn [map]. now rewrite Hi, IH.
Qed.

Lemma ranked_records_registered toks full paired ranked :
  ranked_records toks full paired = Returned ranked ->
  (forall r, In r ranked -> registered paired r)
  /\ List.NoDup (map r_index ranked).
Proof.
  unfold ranked_records. intros H.
  apply bind_returned in H as ([w rs] & Hc & H).
  apply bind_returned in H as (sc & Hsc & [= <-]). cbn [fst snd] in Hsc.
  unfold collect_records in Hc.
  apply bind_returned in Hc as (st & Hloop & [= <- <-]).
  pose proof (record_loop_registered toks full [] paired _ _ _ Hloop
                (fun j (H : In j []) => match H with end)
                (fun r (H : In r []) => match H with end)) as Hreg.
  pose proof (record_loop_ordered _ _ _ _ _ _ _ Hloop (SSorted_nil _)
                (fun j (H : In j []) => match H with end)) as Hsorted.
  cbn [app] in Hreg.
  assert (Hsc_reg : forall r, In r sc -> registered paired r).
  { intros r' Hin. destruct (computeScore_from _ _ _ _ Hsc Hin) as (r & Hr & Hcr).
    destruct (compute_one_keeps _ _ _ Hcr) as [Hi Hit].
    destruct (Hreg r Hr) as (rec & c & Hn & Hitem).
    exists rec, c. rewrite Hi, Hit. now split. }
  assert (Hsc_nd : List.NoDup (map r_index sc)).
  { rewrite (same_but_scores_indices _ _ (computeScore_shape _ _ _ Hsc)).
    now apply sorted_lt_nodup. }
  destruct (shouldSort opts); [|now split]. split.
  - intros r Hin. apply Hsc_reg. now apply sort_in.
  - apply (Permutation_NoDup (l := map r_index sc)); [|exact Hsc_nd].
    apply Permutation_map. symmetry. apply sort_perm.
Qed.

(** Every result that reaches [_format] stands for a record of the
    collection, and no two for the same one: it is registered under the
    position of the record and holds the record itself or, with recursion
    enabled, the copy of it that carries the results of the search of its
    children. *)
Theorem ranked_results_stand_for_records toks full paired ranked :
  ranked_records toks full paired = Returned ranked ->
  (forall r, In r ranked -> registered paired r)
  /\ List.NoDup (map r_index ranked).
Proof. apply ranked_records_registered. Qed.

Lemma format_plain rs :
  id_set = None -> includeMatches opts = false -> includeScore opts = false ->
  _format rs = Returned (map r_item rs).
Proof.
  intros Hid Hm Hs. unfold _format.
  assert (H : forall acc,
             foldM (fun out r => do d <- format_one r; Returned (out ++ [d])) rs acc
             = Returned (acc ++ map r_item rs)).
  { induction rs as [|r rs IH]; intros acc; cbn [foldM map].
    - now rewrite app_nil_r.
    - unfold format_one at 1. rewrite Hid, Hm, Hs. cbn [bind negb andb].
      rewrite IH, <- app_assoc. reflexivity. }
  rewrite H, Hm. reflexivity.
Qed.

(** With the default output options (no identifier, no matches, no score)
    and without recursion, a search over records returns records of the
    collection themselves: the list returned is made of the elements at
    pairwise distinct positions of the collection. *)
Theorem default_search_returns_records
  (list_ : list value) (pattern : string) (v : value) :
  recursive_enabled opts = false -> id_set = None ->
  includeMatches opts = false -> includeScore opts = false ->
  first_is_string list_ = false ->
  search list_ pattern = Returned v ->
  exists positions,
    v = VArr (map (fun i => nth i list_ VUndef) positions)
    /\ List.NoDup positions
    /\ forall i, In i positions -> (i < length list_)%nat.
Proof.
  intros Hrec Hid Hm Hs Hf H. unfold search, _prepareSearchers in H.
  rewrite _search_unfold, search_records_structured in H by exact Hf.
  apply bind_returned in H as (ranked & Hr & H).
  rewrite (format_plain ranked Hid Hm Hs) in H. injection H as <-.
  destruct (ranked_records_registered _ _ _ _ Hr) as [Hreg Hnd].
  exists (map r_index ranked).
  assert (Hnth : forall r, In r ranked ->
            nth_error list_ (r_index r) = Some (r_item r)).
  { intros r Hin. destruct (Hreg r Hin) as (rec & c & Hn & [->|[E _]]);
      [|congruence].
    rewrite nth_error_map in Hn.
    destruct (nth_error list_ (r_index r)); [|discriminate].
    now injection Hn as -> _. }
  split; [|split; [exact Hnd|]].
  - f_equal. rewrite map_map. apply map_ext_in. intros r Hin.
    symmetry. apply nth_error_nth. now apply Hnth.
  - intros i Hi. apply in_map_iff in Hi as (r & <- & Hin).
    apply nth_error_Some. rewrite (Hnth r Hin). discriminate.
Qed.

(** ** The range of the scores *)

Lemma inject_nat_succ (n : nat) :
  inject_Z (Z.of_nat (S n)) == 1 + inject_Z (Z.of_nat n).
Proof.
  rewrite Nat2Z.inj_succ. unfold Z.succ. rewrite inject_Z_plus. ring.
Qed.

Lemma inject_nat_nonneg (n : nat) : 0 <= inject_Z (Z.of_nat n).
Proof. unfold Qle. cbn. lia. Qed.

Lemma Qsum_le_length (l : list Q) :
  Forall (fun x => x <= 1) l -> Qsum l <= inject_Z (Z.of_nat (length l)).
Proof.
  induction 1 as [|x l Hx _ IH]; [unfold Qle; cbn; lia|].
  cbn [length]. rewrite inject_nat_succ. cbn [Qsum fold_right].
  fold (Qsum l). lra.
Qed.

Lemma quotient_range (a : Q) (n : nat) :
  0 <= a -> a <= inject_Z (Z.of_nat (S n)) ->
  0 <= a / inject_Z (Z.of_nat (S n)) <= 1.
Proof.
  intros H0 H1.
  assert (Hpos : 0 < inject_Z (Z.of_nat (S n)))
    by (rewrite inject_nat_succ; pose proof (inject_nat_nonneg n); lra).
  split.
  - apply Qle_shift_div_l; [exact Hpos|lra].
  - apply Qle_shift_div_r; [exact Hpos|lra].
Qed.

Lemma mean_range (x : Q) (l : list Q) :
  Forall (fun y => 0 <= y) (x :: l) -> Forall (fun y => y <= 1) (x :: l) ->
  0 <= mean (x :: l) <= 1.
Proof.
  intros H0 H1. unfold mean. cbn [length]. apply quotient_range.
  - now apply Qsum_nonneg.
  - now apply (Qsum_le_length (x :: l)).
Qed.

Lemma all_pair_scores_le_one value_ tokenSearchers :
  (forall t w, mo_score (Bitap_search t w) <= 1) ->
  Forall (fun x => x <= 1) (all_pair_scores value_ tokenSearchers).
Proof.
  intros Hb. unfold all_pair_scores. apply List.Forall_forall. intros x Hx.
  apply in_flat_map in Hx as (t & _ & Hx). unfold pair_scores in Hx.
  apply in_flat_map in Hx as (w & _ & Hx). unfold pair_score in Hx.
  destruct (isMatch (Bitap_search t w)).
  - destruct Hx as [<-|[]]. apply Hb.
  - destruct (matchAllTokens opts); [destruct Hx|].
    destruct Hx as [<-|[]]. lra.
Qed.

Lemma finalScore_range_aux value_ toks full :
  (forall t w, 0 <= mo_score (Bitap_search t w) <= 1) ->
  0 <= finalScore (Bitap_search full value_) (snd (token_pass value_ toks)) <= 1.
Proof.
  intros Hb. pose proof (Hb full value_) as Hmain. unfold token_pass.
  destruct (tokenize opts); [|cbn; exact Hmain].
  rewrite token_loop. cbn [snd app].
  fold (all_pair_scores value_ toks).
  pose proof (all_pair_scores_nonneg value_ toks (fun t w => proj1 (Hb t w))) as H0.
  pose proof (all_pair_scores_le_one value_ toks (fun t w => proj2 (Hb t w))) as H1.
  destruct (all_pair_scores value_ toks) as [|s0 rest]; [cbn; exact Hmain|].
  destruct (average_mean s0 rest) as (a & -> & Ha).
  pose proof (mean_range s0 rest H0 H1) as Hm. rewrite <- Ha in Hm.
  cbn [finalScore gt_minus_one].
  destruct (negb (Qle_bool a (-1))); [|exact Hmain].
  split.
  - apply Qle_shift_div_l; lra.
  - apply Qle_shift_div_r; lra.
Qed.

(** When the matcher's scores lie between 0 and 1, so does the final
    score of every text, with or without the token pass. *)
Theorem finalScore_range (value_ : string) (tokenSearchers : list string)
  (fullSearcher : string) :
  (forall t w, 0 <= mo_score (Bitap_search t w) <= 1) ->
  0 <= finalScore (Bitap_search fullSearcher value_)
                  (snd (token_pass value_ tokenSearchers)) <= 1.
Proof. apply finalScore_range_aux. Qed.

Lemma stored_weight_range (d : option Q) :
  weight_rejected d = false -> 0 < stored_weight d <= 1.
Proof.
  destruct d as [w|]; [|cbn; lra]. cbn [weight_rejected stored_weight].
  intros H. apply orb_false_elim in H as [H0 H1].
  apply negb_false_iff, Qle_bool_iff in H1.
  assert (Hpos : ~ w <= 0) by (intros C; apply Qle_bool_iff in C; congruence).
  destruct (negb (Qle_bool w 0) && Qle_bool w absorbed_weight); [lra|].
  destruct (Qeq_bool (1 - w) 0) eqn:E; [lra|].
  apply Qeq_bool_neq in E. lra.
Qed.

Lemma weights_in_range_insert (w : gmap string Q) k x :
  0 < x <= 1 -> weights_in_range w -> weights_in_range (<[k := x]> w).
Proof.
  intros Hx Hw k' y. destruct (decide (k = k')) as [->|Hne].
  - rewrite lookup_insert_eq. now intros [= <-].
  - rewrite lookup_insert_ne by exact Hne. apply Hw.
Qed.

Lemma analyze_string_scored key s record index toks full rs :
  analyze_string key s record index toks full rs = rs
  \/ exists fr,
      fr_score fr = finalScore (Bitap_search full s) (snd (token_pass s toks))
      /\ analyze_string key s record index toks full rs
         = record_field index record fr rs.
Proof.
  unfold analyze_string, record_field.
  destruct (token_pass s toks) as [[x k] avg].
  match goal with |- context [if ?c then _ else _] => destruct c end;
    [|now left].
  right. eexists. split; [|reflexivity]. reflexivity.
Qed.

Lemma record_field_fields (P : field_result -> Prop) index record fr rs :
  P fr ->
  (forall r f, In r rs -> In f (r_output r) -> P f) ->
  forall r f, In r (record_field index record fr rs) -> In f (r_output r) -> P f.
Proof.
  intros HP Hrs r f. unfold record_field.
  destruct (resultMap_get index rs) as [old|].
  - intros Hin Hf.
    destruct (output_push_field _ _ _ _ _ Hin Hf) as [->|(r0 & H0 & H1)];
      [exact HP|exact (Hrs _ _ H0 H1)].
  - intros Hin Hf. apply in_app_iff in Hin as [Hin|[<-|[]]];
      [exact (Hrs _ _ Hin Hf)|].
    cbn [r_output] in Hf. destruct Hf as [<-|[]]. exact HP.
Qed.

Lemma analyze_scores_in_range key v record index toks full rs :
  (forall t w, 0 <= mo_score (Bitap_search t w) <= 1) ->
  scores_in_range rs ->
  scores_in_range (_analyze key v record index toks full rs).
Proof.
  intros Hb. apply analyze_invariant. clear rs. intros s rs Hrs.
  destruct (analyze_string_scored key s record index toks full rs)
    as [->|(fr & Hfr & ->)]; [exact Hrs|].
  unfold scores_in_range.
  apply (record_field_fields (fun f => 0 <= fr_score f <= 1)); [|exact Hrs].
  rewrite Hfr. now apply finalScore_range_aux.
Qed.

Lemma splice_fields (P : field_result -> Prop) item i c rs rs' :
  splice_children item i c rs = Returned rs' ->
  (forall r f, In r rs -> In f (r_output r) -> P f) ->
  forall r f, In r rs' -> In f (r_output r) -> P f.
Proof.
  intros Hsp Hw.
  destruct (splice_children_cases _ _ _ _ _ Hsp)
    as [->|[(r & ch & Hget & _ & ->)|(ch & Hget & _ & ->)]]; [exact Hw| |].
  - intros r0 fr Hin Hfr. destruct (result_replace_inv _ _ _ _ Hin) as [->|Hin'].
    + cbn [r_output] in Hfr.
      exact (Hw r fr (proj1 (resultMap_get_some _ _ _ Hget)) Hfr).
    + exact (Hw r0 fr Hin' Hfr).
  - intros r0 fr Hin Hfr. apply in_app_iff in Hin as [Hin|[<-|[]]];
      [exact (Hw r0 fr Hin Hfr)|destruct Hfr].
Qed.

Lemma record_loop_in_range toks full paired :
  (forall t w, 0 <= mo_score (Bitap_search t w) <= 1) ->
  forall i w rs st,
    foldM (record_step toks full) paired (i, w, rs) = Returned st ->
    weights_in_range w -> scores_in_range rs ->
    weights_in_range (snd (fst st)) /\ scores_in_range (snd st).
Proof.
  intros Hb. induction paired as [|[item c] paired IH]; intros i w rs st;
    cbn [foldM].
  - intros [= <-]. now split.
  - intros H Hw Hs. apply bind_returned in H as (st1 & Hstep & Hrest).
    unfold record_step in Hstep.
    apply bind_returned in Hstep as ([w1 rs1] & Hk & Hstep).
    apply bind_returned in Hstep as (rs2 & Hsp & [= <-]).
    cbn [fst snd] in *.
    assert (H1 : weights_in_range w1 /\ scores_in_range rs1).
    { clear Hsp Hrest. revert w rs Hk Hw Hs.
      induction (keys opts) as [|k ks IHk]; intros w rs Hk Hw Hs; cbn [foldM] in Hk.
      - injection Hk as <- <-. now split.
      - apply bind_returned in Hk as ([w0 rs0] & Hstep & Hrest).
        apply (IHk _ _ Hrest); unfold key_step in Hstep;
          destruct k as [name|name wt];
          try (destruct (weight_rejected wt) eqn:Ew; [discriminate|]);
          injection Hstep as <- <-;
          try (now apply analyze_scores_in_range).
        + apply weights_in_range_insert; [lra|exact Hw].
        + apply weights_in_range_insert; [now apply stored_weight_range|exact Hw]. }
    destruct H1 as [Hw1 Hs1].
    apply (IH _ _ _ _ Hrest); [exact Hw1|].
    exact (splice_fields _ _ _ _ _ _ Hsp Hs1).
Qed.

Lemma score_loop_range (weights : gmap string Q) (output : list field_result) :
  weights_in_range weights ->
  (forall fr, In fr output -> 0 <= fr_score fr <= 1) ->
  forall t b d t' b' d',
    foldM (score_step (Some weights)) output (t, b, d) = Returned (t', b', d') ->
    0 <= t -> 0 <= b <= 1 ->
    0 <= t' /\ t' <= t + inject_Z (Z.of_nat (length output)) /\ 0 <= b' <= 1.
Proof.
  intros Hw. induction output as [|fr out IH]; intros Hs t b d t' b' d';
    cbn [foldM length].
  - intros [= <- <- _] Ht Hb. change (inject_Z (Z.of_nat 0)) with (0 # 1).
    repeat split; lra.
  - intros H Ht Hb. apply bind_returned in H as ([[t1 b1] d1] & Hstep & Hrest).
    unfold score_step, field_weight in Hstep.
    destruct (weights !! fr_key fr) as [x|] eqn:Ex; [|discriminate].
    cbn [bind] in Hstep. pose proof (Hw _ _ Ex) as Hx.
    pose proof (Hs fr (or_introl eq_refl)) as Hfr.
    assert (Hn : 0 <= fr_score fr * x <= 1) by nra.
    rewrite inject_nat_succ.
    destruct (negb (Qeq_bool x 1)); injection Hstep as <- <- <-.
    + destruct (IH (fun f H => Hs f (or_intror H)) _ _ _ _ _ _ Hrest Ht)
        as (H0 & H1 & H2); [|repeat split; lra].
      pose proof (Q.le_min_l b (fr_score fr * x)).
      pose proof (Q.min_glb b (fr_score fr * x) 0). lra.
    + destruct (IH (fun f H => Hs f (or_intror H)) _ _ _ _ _ _ Hrest)
        as (H0 & H1 & H2); [lra|exact Hb|repeat split; lra].
Qed.

Lemma compute_one_range (weights : gmap string Q) (r r' : result) :
  weights_in_range weights ->
  (forall fr, In fr (r_output r) -> 0 <= fr_score fr <= 1) ->
  compute_one (Some weights) r = Returned r' ->
  match r_output r with
  | [] => r_score r' = Some NaN
  | _ :: _ => exists m, r_score r' = Some (Fin m) /\ 0 <= m <= 1
  end.
Proof.
  intros Hw Hs H. unfold compute_one in H.
  apply bind_returned in H as ([[t b] d] & Hloop & [= <-]). cbn [r_score].
  destruct (score_loop_range weights (r_output r) Hw Hs _ _ _ _ _ _ Hloop)
    as (H0 & H1 & H2); [lra|lra|].
  destruct (r_output r) as [|fr out] eqn:E.
  - cbn [foldM] in Hloop. injection Hloop as <- <- <-. reflexivity.
  - destruct (Qeq_bool b 1); [|now exists b].
    cbn [length mean_over]. eexists. split; [reflexivity|].
    apply quotient_range; [exact H0|]. cbn [length] in H1. lra.
Qed.

(** When the matcher's scores lie between 0 and 1, every result that
    reaches [_format] with at least one matched field has an aggregate
    between 0 and 1; a result without one (a parent kept for its
    children) has the aggregate [NaN]. *)
Theorem aggregate_range toks full paired ranked :
  (forall t w, 0 <= mo_score (Bitap_search t w) <= 1) ->
  ranked_records toks full paired = Returned ranked ->
  forall r, In r ranked ->
    match r_output r with
    | [] => r_score r = Some NaN
    | _ :: _ => exists m, r_score r = Some (Fin m) /\ 0 <= m <= 1
    end.
Proof.
  intros Hb H. unfold ranked_records in H.
  apply bind_returned in H as ([w rs] & Hc & H).
  apply bind_returned in H as (sc & Hsc & [= <-]). cbn [fst snd] in Hsc.
  unfold collect_records in Hc.
  apply bind_returned in Hc as (st & Hloop & [= <- <-]).
  destruct (record_loop_in_range toks full paired Hb _ _ _ _ Hloop) as [Hw Hs].
  { intros k x. rewrite lookup_empty. discriminate. }
  { intros r fr []. }
  assert (Hall : forall r', In r' sc ->
            match r_output r' with
            | [] => r_score r' = Some NaN
            | _ :: _ => exists m, r_score r' = Some (Fin m) /\ 0 <= m <= 1
            end).
  { intros r' Hin. destruct (computeScore_from _ _ _ _ Hsc Hin) as (r & Hr & Hcr).
    pose proof (compute_one_range _ _ _ Hw (fun fr => Hs r fr Hr) Hcr) as Hrange.
    unfold compute_one in Hcr.
    apply bind_returned in Hcr as ([[t b] d] & Hl & [= <-]).
    cbn [r_output r_score] in *.
    pose proof (score_loop_core _ _ _ _ _ _ _ _ Hl) as Hcore. cbn [map app] in Hcore.
    destruct (r_output r), d; try discriminate; exact Hrange. }
  intros r Hin. apply Hall. destruct (shouldSort opts); [now apply sort_in|exact Hin].
Qed.

(** ** Why a record is among the results *)

Lemma output_push_cases index fr rs r :
  In r (output_push index fr rs) ->
  In r rs \/ (r_index r = index /\ r_output r <> []).
Proof.
  induction rs as [|r1 rs IH]; [intros []|]. cbn [output_push].
  destruct (Nat.eqb (r_index r1) index) eqn:E.
  - intros [Heq|Hin]; [|left; now right].
    right. subst r. cbn. apply Nat.eqb_eq in E. split; [exact E|].
    now destruct (r_output r1).
  - intros [Heq|Hin]; [left; now left|].
    destruct (IH Hin) as [H|H]; [left; now right|now right].
Qed.

Lemma record_field_justified paired i record fr rs :
  justified_upto paired i rs ->
  justified_upto paired i (record_field i record fr rs).
Proof.
  intros Hrs r. unfold record_field. destruct (resultMap_get i rs) as [old|].
  - intros Hin. destruct (output_push_cases _ _ _ _ Hin) as [H|[_ H]];
      [now apply Hrs|]. split; [now left|intros _; exact H].
  - intros Hin. apply in_app_iff in Hin as [Hin|[<-|[]]]; [now apply Hrs|].
    cbn. split; [left; discriminate|intros _; discriminate].
Qed.

Lemma splice_children_appends item i c rs rs' :
  splice_children item i c rs = Returned rs' ->
  rs' = rs
  \/ (exists r children,
        resultMap_get i rs = Some r
        /\ rs' = result_replace i
                   (Result (r_index r)
                      (assign_key (r_item r) (recursive_key opts) children)
                      (r_output r) (r_score r)) rs)
  \/ (exists x xs children,
        recursive_enabled opts = true
        /\ js_get item (recursive_key opts) = Returned (VArr (x :: xs))
        /\ c = Returned children /\ truthy_length children = true
        /\ rs' = rs ++ [Result i (assign_key item (recursive_key opts) children)
                               [] None]).
Proof.
  unfold splice_children. destruct (recursive_enabled opts);
    [|intros [= <-]; now left].
  intros H. apply bind_returned in H as (sub & Hsub & H).
  destruct sub as [| | | | |[|x xs]|]; try (injection H as <-; now left).
  apply bind_returned in H as (children & -> & H).
  destruct (resultMap_get i rs) as [r|] eqn:E.
  - injection H as <-. right. left. now exists r, children.
  - destruct (truthy_length children) eqn:Et; injection H as <-; [|now left].
    right. right. now exists x, xs, children.
Qed.

Lemma record_loop_justified toks full (done_ paired : list (value * outcome value)) :
  forall w rs st,
    foldM (record_step toks full) paired (length done_, w, rs) = Returned st ->
    indices_below (length done_) rs ->
    (forall r, In r rs -> justified (done_ ++ paired) r) ->
    forall r, In r (snd st) -> justified (done_ ++ paired) r.
Proof.
  revert done_. induction paired as [|[item c] paired IH]; intros done_ w rs st;
    cbn [foldM].
  - now intros [= <-].
  - intros H Hb Hrs. apply bind_returned in H as (st1 & Hstep & Hrest).
    destruct (record_step_spec _ _ _ _ _ _ _ _ Hstep Hb)
      as (w1 & rs1 & -> & Hb1 & _).
    assert (Hn : nth_error (done_ ++ (item, c) :: paired) (length done_)
                 = Some (item, c))
      by (rewrite nth_error_app2, Nat.sub_diag by lia; reflexivity).
    assert (Hrs1 : forall r, In r rs1 ->
              justified (done_ ++ (item, c) :: paired) r).
    { set (all := done_ ++ (item, c) :: paired) in *.
      set (i := length done_) in *.
      unfold record_step in Hstep.
      apply bind_returned in Hstep as ([w0 rs0] & Hk & Hstep).
      apply bind_returned in Hstep as (rs2 & Hsp & [= <- <-]).
      cbn [fst snd] in *.
      assert (H0 : justified_upto all i rs0).
      { apply (key_loop_invariant (justified_upto all i) item i toks full)
          with (2 := Hk).
        - intros k rs3 H3. revert rs3 H3. apply analyze_invariant. intros s rs3 H3.
          destruct (analyze_string_cases k s item i toks full rs3)
            as [->|(fr & _ & ->)]; [exact H3|now apply record_field_justified].
        - intros r Hin. split; [now apply Hrs|]. intros Hi. exfalso.
          specialize (Hb i). rewrite <- Hi in Hb at 1.
          specialize (Hb (in_map r_index _ _ Hin)). lia. }
      destruct (splice_children_appends _ _ _ _ _ Hsp)
        as [->|[(r & ch & Hget & ->)|(x & xs & ch & Hrec & Hsub & Hc & Ht & ->)]].
      + intros r Hin. now apply H0.
      + destruct (resultMap_get_some _ _ _ Hget) as [Hin Hi].
        intros r0 Hr0. destruct (result_replace_inv _ _ _ _ Hr0) as [->|Hr0'];
          [|now apply H0]. left. cbn [r_output]. now apply (H0 r Hin).
      + intros r0 Hr0. apply in_app_iff in Hr0 as [Hr0|[<-|[]]]; [now apply H0|].
        right. split; [exact Hrec|]. exists item, x, xs, ch. cbn [r_index r_item].
        rewrite Hn, Hc. now repeat split. }
    replace (done_ ++ (item, c) :: paired) with ((done_ ++ [(item, c)]) ++ paired)
      in * by (rewrite <- app_assoc; reflexivity).
    apply (IH (done_ ++ [(item, c)]) w1 rs1 st); rewrite ?length_app; cbn [length];
      rewrite ?Nat.add_1_r; assumption.
Qed.

(** A record is among the results only for a reason: every result that
    reaches [_format] has at least one matched field, or (with recursion
    enabled) holds the copy of the record at its position, whose
    designated field is a non-empty array, carrying the non-empty results
    the search of those children returned. *)
Theorem results_are_justified toks full paired ranked :
  ranked_records toks full paired = Returned ranked ->
  forall r, In r ranked -> justified paired r.
Proof.
  unfold ranked_records. intros H.
  apply bind_returned in H as ([w rs] & Hc & H).
  apply bind_returned in H as (sc & Hsc & [= <-]). cbn [fst snd] in Hsc.
  unfold collect_records in Hc.
  apply bind_returned in Hc as (st & Hloop & [= <- <-]).
  pose proof (record_loop_justified toks full [] paired _ _ _ Hloop
                (fun j (H : In j []) => match H with end)
                (fun r (H : In r []) => match H with end)) as Hj.
  cbn [app] in Hj.
  assert (Hall : forall r', In r' sc -> justified paired r').
  { intros r' Hin. destruct (computeScore_from _ _ _ _ Hsc Hin) as (r & Hr & Hcr).
    destruct (compute_one_keeps _ _ _ Hcr) as [Hix Hit].
    destruct (Hj r Hr) as [Ho|(Hrec & rec & x & xs & ch & Hn & Hsub & Ht & Hi)].
    - left. unfold compute_one in Hcr.
      apply bind_returned in Hcr as ([[t b] d] & Hl & [= <-]). cbn [r_output].
      pose proof (score_loop_core _ _ _ _ _ _ _ _ Hl) as Hcore.
      cbn [map app] in Hcore. destruct (r_output r), d; try discriminate.
      contradiction.
    - right. split; [exact Hrec|]. exists rec, x, xs, ch.
      rewrite Hix, Hit. now repeat split. }
  intros r Hin. apply Hall. destruct (shouldSort opts); [now apply sort_in|exact Hin].
Qed.

(** ** The loop over a flat collection *)

Lemma output_push_inv_full index fr rs r :
  In r (output_push index fr rs) ->
  In r rs
  \/ exists r0, In r0 rs /\ r_index r0 = index
       /\ r = Result (r_index r0) (r_item r0) (r_output r0 ++ [fr]) (r_score r0).
Proof.
  induction rs as [|r1 rs IH]; [intros []|]. cbn [output_push].
  destruct (Nat.eqb (r_index r1) index) eqn:E.
  - intros [Heq|Hin]; [|left; now right].
    right. exists r1. apply Nat.eqb_eq in E. repeat split; [now left|exact E|].
    now symmetry.
  - intros [Heq|Hin]; [left; now left|].
    destruct (IH Hin) as [H|(r0 & H0 & H1 & H2)]; [left; now right|].
    right. exists r0. repeat split; [now right|exact H1|exact H2].
Qed.

Lemma record_field_flat i fr rs :
  fr_key fr = EmptyString ->
  (forall r, In r rs -> flat_entry r) ->
  forall r, In r (record_field i (nat_value i) fr rs) -> flat_entry r.
Proof.
  intros Hk Hrs r. unfold record_field. destruct (resultMap_get i rs) as [old|].
  - intros Hin. destruct (output_push_inv_full _ _ _ _ Hin)
      as [H|(r0 & H0 & H1 & ->)]; [now apply Hrs|].
    destruct (Hrs r0 H0) as (Hi & Ho & Hf & Hs). unfold flat_entry. cbn.
    repeat split; try assumption.
    + now destruct (r_output r0).
    + intros f Hf'. apply in_app_iff in Hf' as [Hf'|[<-|[]]];
        [now apply Hf|exact Hk].
  - intros Hin. apply in_app_iff in Hin as [Hin|[<-|[]]]; [now apply Hrs|].
    unfold flat_entry. cbn. repeat split; [discriminate|].
    intros f [<-|[]]. exact Hk.
Qed.

Lemma flat_loop_spec toks full items :
  forall i rs,
    StronglySorted lt (map r_index rs) -> indices_below i rs ->
    (forall r, In r rs -> flat_entry r) ->
    StronglySorted lt (map r_index (flat_loop items i toks full rs))
    /\ indices_below (i + length items) (flat_loop items i toks full rs)
    /\ forall r, In r (flat_loop items i toks full rs) -> flat_entry r.
Proof.
  induction items as [|x items IH]; intros i rs Hs Hb Hf; cbn [flat_loop length].
  - rewrite Nat.add_0_r. split; [exact Hs|]. split; [exact Hb|exact Hf].
  - replace (i + S (length items))%nat with (S i + length items)%nat by lia.
    assert (Ho : ordered_upto i (_analyze "" x (nat_value i) i toks full rs)).
    { apply analyze_ordered. split; [exact Hs|].
      intros j Hj. specialize (Hb j Hj). lia. }
    destruct Ho as [Hs1 Hb1]. apply IH; [exact Hs1|exact Hb1|].
    clear Hs1 Hb1 Hs Hb. revert rs Hf.
    apply (analyze_invariant (fun rs => forall r, In r rs -> flat_entry r)).
    intros s rs Hf.
    destruct (analyze_string_cases "" s (nat_value i) i toks full rs)
      as [->|(fr & Hk & ->)]; [exact Hf|].
    now apply record_field_flat.
Qed.

(** Over a flat collection, the loop records at most one result per
    string, in the order of the collection: the positions are strictly
    ascending and within the collection, and each result holds the
    position of its string as item, at least one matched field, the empty
    key on every field and no aggregate. *)
Theorem flat_loop_one_result_per_string
  (list_ : list value) (toks : list string) (full : string) :
  StronglySorted lt (map r_index (flat_loop list_ 0 toks full []))
  /\ forall r, In r (flat_loop list_ 0 toks full []) ->
       (r_index r < length list_)%nat /\ flat_entry r.
Proof.
  destruct (flat_loop_spec toks full list_ 0 []) as (Hs & Hb & Hf);
    [constructor|intros ? []|intros ? []|].
  split; [exact Hs|]. intros r Hr. split; [|now apply Hf].
  apply (Hb (r_index r)). now apply in_map.
Qed.

(** ** [_computeScore] without a weight map *)

Lemma score_loop_unweighted (output : list field_result) :
  forall t b d,
  exists t' d',
    foldM (score_step None) output (t, b, d) = Returned (t', b, d')
    /\ t' == t + Qsum (map fr_score output).
Proof.
  induction output as [|fr out IH]; intros t b d; cbn [foldM].
  - exists t, d. split; [reflexivity|]. cbn. lra.
  - unfold score_step at 1. cbn [field_weight bind].
    change (Qeq_bool 1 1) with true. cbn [negb bind].
    destruct (IH (t + fr_score fr * 1) b
                (d ++ [FieldResult (fr_key fr) (fr_score fr)
                         (fr_matchedIndices fr) (Some (fr_score fr * 1))]))
      as (t' & d' & -> & Ht).
    exists t', d'. split; [reflexivity|]. rewrite Ht.
    cbn [map Qsum fold_right]. fold (Qsum (map fr_score out)). ring.
Qed.

(** Called without a weight map ([weights] is [null]), [_computeScore]
    never throws and gives every result with a matched field the
    arithmetic mean of its field scores. *)
Theorem computeScore_without_weights (r : result) :
  exists r',
    compute_one None r = Returned r'
    /\ match r_output r with
       | [] => r_score r' = Some NaN
       | _ :: _ => exists m, r_score r' = Some (Fin m)
                             /\ m == mean (map fr_score (r_output r))
       end.
Proof.
  unfold compute_one.
  destruct (score_loop_unweighted (r_output r) 0 1 []) as (t' & d' & -> & Ht).
  cbn [bind]. eexists. split; [reflexivity|]. cbn [r_score].
  change (Qeq_bool 1 1) with true. cbv iota.
  destruct (r_output r) as [|fr out]; [reflexivity|].
  cbn [length mean_over]. eexists. split; [reflexivity|].
  unfold mean. rewrite Ht, length_map, Qplus_0_l. reflexivity.
Qed.

(** ** Projection to the identifier *)

Lemma js_index0_returns (v : value) :
  (exists x, js_index0 v = Returned x) <-> v <> VUndef /\ v <> VNull.
Proof.
  split.
  - intros [x H]. destruct v; try discriminate; now split.
  - intros [Hu Hn]. destruct v as [| | | |[|? ?]|[|? ?]|]; try contradiction;
      cbn; now eexists.
Qed.

(** With an identifier configured, [_format] returns exactly when the
    accessor gives a value (neither [undefined] nor [null]) for the
    identifier of every result; it reads element 0 of that value, and the
    read on a missing value is its only way to fail. *)
Theorem format_returns_iff (i : string) (rs : list result) :
  id_set = Some i ->
  (exists out, _format rs = Returned out)
  <-> forall r, In r rs ->
        getFn (r_item r) i <> VUndef /\ getFn (r_item r) i <> VNull.
Proof.
  intros Hid. unfold _format.
  enough (H : forall acc,
             (exists out,
                foldM (fun out r => do d <- format_one r; Returned (out ++ [d]))
                      rs acc = Returned out)
             <-> (forall r, In r rs ->
                    getFn (r_item r) i <> VUndef /\ getFn (r_item r) i <> VNull)).
  { rewrite <- (H []). split.
    - intros [out Ho]. apply bind_returned in Ho as (o & -> & _). now eexists.
    - intros [o ->]. cbn [bind].
      destruct (includeMatches opts && highlight_enabled opts); now eexists. }
  induction rs as [|r rs IH]; intros acc; cbn [foldM].
  - split; [intros _ ? []|intros _; now eexists].
  - split.
    + intros [out H]. apply bind_returned in H as (acc1 & H1 & H2).
      apply bind_returned in H1 as (d & Hd & _).
      unfold format_one in Hd. rewrite Hid in Hd.
      apply bind_returned in Hd as (it & Hit & _).
      intros r0 [<-|Hin].
      * apply js_index0_returns. now exists it.
      * exact (proj1 (IH acc1) (ex_intro _ out H2) r0 Hin).
    + intros Hall. unfold format_one at 1. rewrite Hid.
      destruct (proj2 (js_index0_returns (getFn (r_item r) i))
                  (Hall r (or_introl eq_refl))) as [it ->]. cbn [bind].
      destruct (negb (includeMatches opts) && negb (includeScore opts));
        cbn [bind]; apply IH; intros r0 Hin; apply Hall; now right.
Qed.

(** ** The weight map the search builds, and the aggregate it gives *)

Lemma key_loop_lookup item i toks full ks :
  forall w rs w' rs',
    foldM (key_step item i toks full) ks (w, rs) = Returned (w', rs') ->
    forall name,
      w' !! name = match find_key name ks with
                   | Some k => Some (stored_weight (key_weight k))
                   | None => w !! name
                   end.
Proof.
  induction ks as [|k ks IH]; intros w rs w' rs'; cbn [foldM find_key].
  - now intros [= <- <-].
  - intros H name. apply bind_returned in H as ([w1 rs1] & Hstep & Hrest).
    rewrite (IH _ _ _ _ Hrest name).
    destruct (find_key name ks); [reflexivity|].
    unfold key_step in Hstep. destruct k as [n|n wt].
    + injection Hstep as <- _. destruct (String.eqb_spec n name) as [->|Hne].
      * now rewrite lookup_insert_eq.
      * now rewrite lookup_insert_ne.
    + destruct (weight_rejected wt); [discriminate|].
      injection Hstep as <- _. destruct (String.eqb_spec n name) as [->|Hne].
      * now rewrite lookup_insert_eq.
      * now rewrite lookup_insert_ne.
Qed.

Lemma record_loop_configured toks full paired :
  forall i w rs st,
    foldM (record_step toks full) paired (i, w, rs) = Returned st ->
    weights_configured w -> weights_configured (snd (fst st)).
Proof.
  induction paired as [|[item c] paired IH]; intros i w rs st; cbn [foldM].
  - now intros [= <-].
  - intros H Hw. apply bind_returned in H as (st1 & Hstep & Hrest).
    unfold record_step in Hstep.
    apply bind_returned in Hstep as ([w1 rs1] & Hk & Hstep).
    apply bind_returned in Hstep as (rs2 & _ & [= <-]).
    apply (IH _ _ _ _ Hrest). cbn [fst snd].
    intros name x. rewrite (key_loop_lookup _ _ _ _ _ _ _ _ _ Hk name).
    unfold configured_weight. destruct (find_key name (keys opts)) as [k|] eqn:E.
    + now intros [= <-].
    + intros Hx. specialize (Hw name x Hx). unfold configured_weight in Hw.
      now rewrite E in Hw.
Qed.

(** What the stored weight is of the declared one. *)
Lemma stored_weight_of_declared (w : Q) :
  (w == 1 \/ 0 < w <= absorbed_weight -> stored_weight (Some w) = 1)
  /\ (absorbed_weight < w -> ~ w == 1 -> stored_weight (Some w) == 1 - w).
Proof.
  unfold stored_weight, absorbed_weight. split.
  - intros [H1|[H0 Ha]].
    + assert (E : Qle_bool w (1 # 18014398509481984) = false).
      { destruct (Qle_bool w (1 # 18014398509481984)) eqn:E; [|reflexivity].
        apply Qle_bool_iff in E. lra. }
      rewrite E, andb_false_r.
      assert (E2 : Qeq_bool (1 - w) 0 = true) by (apply Qeq_eq_bool; lra).
      now rewrite E2.
    + assert (E0 : Qle_bool w 0 = false).
      { destruct (Qle_bool w 0) eqn:E; [|reflexivity].
        apply Qle_bool_iff in E. lra. }
      assert (E1 : Qle_bool w (1 # 18014398509481984) = true)
        by now apply Qle_bool_iff.
      now rewrite E0, E1.
  - intros Ha Hne.
    assert (E : Qle_bool w (1 # 18014398509481984) = false).
    { destruct (Qle_bool w (1 # 18014398509481984)) eqn:E; [|reflexivity].
      apply Qle_bool_iff in E. lra. }
    rewrite E, andb_false_r.
    destruct (Qeq_bool (1 - w) 0) eqn:E2; [|reflexivity].
    apply Qeq_bool_eq in E2. exfalso. apply Hne. lra.
Qed.

(** C2 (as the code has it): for the weight map and the results the loop
    over the records collects, with matcher scores between 0 and 1.  The
    weight of a field is the one stored for its key: 1 for a key that
    declares no weight, declares 1, or declares a weight so small (at most
    2^-54) that the difference from 1 is 1 itself, and 1 - declared weight
    otherwise.  When some field of a record has a weight other than 1, the
    aggregate is the least, over those fields, of score times weight, and
    the other fields do not count; when none has, it is the arithmetic
    mean of the scores of all fields. *)
Theorem aggregate_score
  (toks : list string) (full : string) (paired : list (value * outcome value))
  (weights : gmap string Q) (rs : list result) (r : result) :
  (forall t w, 0 <= mo_score (Bitap_search t w) <= 1) ->
  collect_records toks full paired = Returned (weights, rs) ->
  In r rs ->
  let weight fr := stored_weight (configured_weight (fr_key fr)) in
  let weighted fr := negb (Qeq_bool (weight fr) 1) in
  let product fr := fr_score fr * weight fr in
  (forall fr, In fr (r_output r) ->
     weights !! fr_key fr = Some (weight fr)
     /\ match configured_weight (fr_key fr) with
        | Some w =>
            (w == 1 \/ 0 < w <= absorbed_weight -> weight fr = 1)
            /\ (absorbed_weight < w -> ~ w == 1 -> weight fr == 1 - w)
        | None => weight fr = 1
        end)
  /\ exists r',
       compute_one (Some weights) r = Returned r'
       /\ (forall scored,
             _computeScore (Some weights) rs = Returned scored -> In r' scored)
       /\ if existsb weighted (r_output r)
          then exists m,
                 r_score r' = Some (Fin m)
                 /\ (exists fr, In fr (r_output r) /\ weighted fr = true
                                /\ m == product fr)
                 /\ (forall fr, In fr (r_output r) -> weighted fr = true ->
                                m <= product fr)
          else match r_output r with
               | [] => r_score r' = Some NaN
               | _ :: _ => exists m, r_score r' = Some (Fin m)
                                     /\ m == mean (map fr_score (r_output r))
               end.
Proof.
  intros Hb Hc Hr weight weighted product.
  unfold collect_records in Hc.
  apply bind_returned in Hc as (st & Hloop & [= <- <-]).
  pose proof (record_loop_weighted _ _ _ _ _ _ _ Hloop
                (fun r0 fr (H : In r0 []) => match H with end)) as Hkw.
  pose proof (record_loop_configured _ _ _ _ _ _ _ Hloop) as Hcf.
  assert (Hcf' : weights_configured (snd (fst st))).
  { apply Hcf. intros name x. rewrite lookup_empty. discriminate. }
  destruct (record_loop_in_range toks full paired Hb _ _ _ _ Hloop) as [Hwr Hsr].
  { intros k x. rewrite lookup_empty. discriminate. }
  { intros r0 fr []. }
  assert (Hentry : forall fr, In fr (r_output r) ->
            snd (fst st) !! fr_key fr = Some (weight fr)).
  { intros fr Hfr. destruct (Hkw r fr Hr Hfr) as [x Hx].
    rewrite Hx. f_equal. now apply Hcf'. }
  split.
  - intros fr Hfr. split; [now apply Hentry|]. unfold weight.
    destruct (configured_weight (fr_key fr)) as [w|]; [|reflexivity].
    apply stored_weight_of_declared.
  - destruct (compute_one_aggregate (snd (fst st)) weight r) as (r' & Hr' & Hagg).
    { intros fr Hfr. split; [now apply Hentry|]. split.
      + exact (Hwr _ _ (Hentry fr Hfr)).
      + exact (Hsr r fr Hr Hfr). }
    exists r'. split; [exact Hr'|]. split; [|exact Hagg].
    intros scored Hsc. destruct (computeScore_keeps _ _ _ _ Hsc Hr) as (e' & He & Hce).
    cbn [fst snd] in *. rewrite Hr' in Hce. now injection Hce as ->.
Qed.

End Fuse.


(** ** A declared weight of exactly 1 *)

Section WeightOne.

Variable Bitap_search : string -> string -> match_outcome.
Variable split : string -> list string.
Variable getFn : value -> string -> value.
Variable highlighter : value -> value.

(** The same options with other keys. *)
Definition with_keys (o : options) (ks : list key_spec) : options :=
  {| keys := ks; id := id o; shouldSort := shouldSort o; sortFn := sortFn o;
     tokenize := tokenize o; matchAllTokens := matchAllTokens o;
     includeMatches := includeMatches o; includeScore := includeScore o;
     recursive_enabled := recursive_enabled o;
     recursive_key := recursive_key o;
     highlight_enabled := highlight_enabled o |}.

(** Two ways of configuring the same key: the same entry, or an object
    with weight exactly 1 against the plain name. *)
Inductive same_key : key_spec -> key_spec -> Prop :=
| same_key_refl k : same_key k k
| same_key_one name w : w == 1 -> same_key (KeyObj name (Some w)) (KeyName name).

Variable o : options.

Lemma key_loop_same item i toks full (ks ks' : list key_spec) :
  Forall2 same_key ks ks' ->
  forall acc,
    foldM (key_step Bitap_search split getFn (with_keys o ks) item i toks full)
          ks acc
    = foldM (key_step Bitap_search split getFn (with_keys o ks') item i toks full)
            ks' acc.
Proof.
  induction 1 as [|k k' l l' Hk _ IH]; intros acc; [reflexivity|].
  cbn [foldM]. destruct acc as [w rs].
  change (key_step Bitap_search split getFn (with_keys o (k :: l)))
    with (key_step Bitap_search split getFn o) in *.
  change (key_step Bitap_search split getFn (with_keys o (k' :: l')))
    with (key_step Bitap_search split getFn o) in *.
  change (key_step Bitap_search split getFn (with_keys o l))
    with (key_step Bitap_search split getFn o) in IH.
  change (key_step Bitap_search split getFn (with_keys o l'))
    with (key_step Bitap_search split getFn o) in IH.
  assert (Hstep : key_step Bitap_search split getFn o item i toks full (w, rs) k
                  = key_step Bitap_search split getFn o item i toks full (w, rs) k').
  { destruct Hk as [k|name x Hx]; [reflexivity|].
    unfold key_step. cbn [weight_rejected stored_weight].
    assert (E0 : Qle_bool x 0 = false).
    { destruct (Qle_bool x 0) eqn:E; [|reflexivity].
      apply Qle_bool_iff in E. lra. }
    assert (E1 : Qle_bool x 1 = true) by (apply Qle_bool_iff; lra).
    assert (E2 : Qeq_bool (1 - x) 0 = true) by (apply Qeq_eq_bool; lra).
    assert (E3 : Qle_bool x absorbed_weight = false).
    { destruct (Qle_bool x absorbed_weight) eqn:E; [|reflexivity].
      apply Qle_bool_iff in E. unfold absorbed_weight in E. lra. }
    now rewrite E0, E1, E2, E3. }
  rewrite Hstep. destruct (key_step _ _ _ _ _ _ _ _ _ k'); cbn [bind];
    [apply IH|reflexivity].
Qed.

Lemma record_step_same toks full (ks ks' : list key_spec) acc rc :
  Forall2 same_key ks ks' ->
  record_step Bitap_search split getFn (with_keys o ks) toks full acc rc
  = record_step Bitap_search split getFn (with_keys o ks') toks full acc rc.
Proof.
  intros Hks. destruct acc as [[i w] rs], rc as [item c].
  unfold record_step. cbn [keys with_keys].
  rewrite (key_loop_same item i toks full ks ks' Hks (w, rs)).
  reflexivity.
Qed.

Lemma foldM_ext {A B} (f g : A -> B -> outcome A) (l : list B) (a : A) :
  (forall a x, f a x = g a x) -> foldM f l a = foldM g l a.
Proof.
  intros H. revert a. induction l as [|x l IH]; intros a; cbn [foldM];
    [reflexivity|].
  rewrite H. destruct (g a x); cbn [bind]; [apply IH|reflexivity].
Qed.

Lemma search_records_same toks full (ks ks' : list key_spec) l paired :
  Forall2 same_key ks ks' ->
  search_records Bitap_search split getFn highlighter (with_keys o ks)
                 toks full l paired
  = search_records Bitap_search split getFn highlighter (with_keys o ks')
                   toks full l paired.
Proof.
  intros Hks. unfold search_records, ranked_records, collect_records.
  rewrite (foldM_ext _ _ paired _
             (fun a x => record_step_same toks full ks ks' a x Hks)).
  reflexivity.
Qed.

(** C10: configuring keys as objects with weight exactly 1 or as plain
    strings gives the same outcome of [search], for every collection and
    every pattern: the same results, or the same error. *)
Theorem weight_one_is_plain_key
  (ks ks' : list key_spec) (list_ : list value) (pattern : string) :
  Forall2 same_key ks ks' ->
  search Bitap_search split getFn highlighter (with_keys o ks) list_ pattern
  = search Bitap_search split getFn highlighter (with_keys o ks') list_ pattern.
Proof.
  intros Hks. unfold search, _prepareSearchers. cbn [tokenize with_keys].
  set (toks := if tokenize o then split pattern else []).
  generalize (VArr list_). intros v.
  assert (H : forall n v, (value_size v < n)%nat ->
     _search Bitap_search split getFn highlighter (with_keys o ks) toks pattern v
     = _search Bitap_search split getFn highlighter (with_keys o ks') toks pattern v).
  { induction n as [|n IH]; intros u Hn; [lia|].
    destruct u; try reflexivity. rewrite !_search_unfold.
    rewrite (search_records_same toks pattern ks ks' l _ Hks). f_equal.
    apply map_ext_in. intros item Hin. f_equal.
    change (child_of (with_keys o ks) item) with (child_of (with_keys o ks') item).
    apply IH. pose proof (value_size_element _ _ Hin).
    pose proof (value_size_child (with_keys o ks') item). lia. }
  exact (H _ v (Nat.lt_succ_diag_r _)).
Qed.

End WeightOne.

(** ** The search on concrete collections *)

Module Examples.

Definition tokenizing : options :=
  {| keys := [KeyName "title"]; id := None; shouldSort := true;
     sortFn := default_sortFn; tokenize := true; matchAllTokens := false;
     includeMatches := false; includeScore := false;
     recursive_enabled := false; recursive_key := "undefined";
     highlight_enabled := false |}.

(** C3: query [a] against the text [a b].  The only query token hits the
    word [a] with score 0, so a per-token average is 0 and the claimed
    final score is 0; the code also counts the pair ([a], [b]) as 1 and
    arrives at 1/4. *)
Lemma token_average_is_per_pair :
  let toks := fst (_prepareSearchers Toy.split tokenizing "a") in
  finalScore (Toy.Bitap_search "a" "a b")
             (snd (token_pass Toy.Bitap_search Toy.split tokenizing "a b" toks))
  == 1 # 4
  /\ claimed_finalScore Toy.Bitap_search Toy.split tokenizing "a b" toks "a"
     == 0
  /\ ~ finalScore (Toy.Bitap_search "a" "a b")
         (snd (token_pass Toy.Bitap_search Toy.split tokenizing "a b" toks))
       == claimed_finalScore Toy.Bitap_search Toy.split tokenizing "a b" toks "a".
Proof.
  vm_compute. repeat split; discriminate.
Qed.

Lemma finalScore_over_pairs_witness :
  (forall t w, 0 <= mo_score (Toy.Bitap_search t w))
  /\ finalScore (Toy.Bitap_search "a" "a b")
       (snd (token_pass Toy.Bitap_search Toy.split tokenizing "a b" ["a"%string]))
     == (0 + mean [0; 1]) / 2.
Proof.
  assert (H : forall t w, 0 <= mo_score (Toy.Bitap_search t w)).
  { intros t w. unfold Toy.Bitap_search.
    destruct (String.prefix t w); [cbn; lra|].
    destruct (Nat.leb 3 (Toy.common_prefix t w)); cbn; lra. }
  split; [exact H|].
  exact (finalScore_over_pairs Toy.Bitap_search Toy.split tokenizing
           "a b" ["a"%string] "a" H).
Defined.

(** The defaults with [includeScore] and the given keys. *)
Definition scoring (ks : list key_spec) : options :=
  {| keys := ks; id := None; shouldSort := true; sortFn := default_sortFn;
     tokenize := false; matchAllTokens := false;
     includeMatches := false; includeScore := true;
     recursive_enabled := false; recursive_key := "undefined";
     highlight_enabled := false |}.

(** C1: [new Fuse(['foobar', 'xfoo', 'foo'], {}).search('foo')] returns the
    object [{weights: null, results}] holding the raw result objects (the
    position of the string as [item], no score, collection order), not the
    formatted list a collection of records gets. *)
Lemma flat_collection_returns_raw :
  search Toy.Bitap_search Toy.split Toy.getFn Toy.highlighter (Toy.defaults [])
         [VStr "foobar"; VStr "xfoo"; VStr "foo"] "foo"
  = Returned
      (VObj [("weights", VNull);
             ("results",
              VArr [VObj [("item", VNum 0);
                          ("output",
                           VArr [VObj [("key", VStr "");
                                       ("score", VNum 0);
                                       ("matchedIndices",
                                        VArr [VArr [VNum 0; VNum 2]])]])];
                    VObj [("item", VNum 2);
                          ("output",
                           VArr [VObj [("key", VStr "");
                                       ("score", VNum 0);
                                       ("matchedIndices",
                                        VArr [VArr [VNum 0; VNum 2]])]])]])]).
Proof. vm_compute. reflexivity. Qed.

(** C2: a record whose field [a] (plain key) scores 0.2 and whose field
    [b] (declared weight 1/4) scores 0.8.  The least product of score and
    declared weight is 0.2; the search reports 0.8 * (1 - 1/4) = 0.6. *)
Lemma weight_is_complemented :
  exists q,
    search Toy.scripted_search Toy.split Toy.getFn Toy.highlighter
           (scoring [KeyName "a"; KeyObj "b" (Some (1 # 4))])
           [VObj [("a", VStr "A"); ("b", VStr "C")]] "x"
    = Returned (VArr [VObj [("item", VObj [("a", VStr "A"); ("b", VStr "C")]);
                            ("score", VNum q)]])
    /\ q == 6 # 10
    /\ ~ q == (8 # 10) * (1 # 4).
Proof.
  eexists. split; [vm_compute; reflexivity|]. split; [reflexivity|discriminate].
Qed.

Lemma scripted_scores_in_range (t w : string) :
  0 <= mo_score (Toy.scripted_search t w) <= 1.
Proof.
  unfold Toy.scripted_search.
  destruct (String.eqb w "A"); [cbn; lra|].
  destruct (String.eqb w "B"); [cbn; lra|].
  destruct (String.eqb w "C"); cbn; lra.
Qed.

Lemma aggregate_score_witness :
  let o := scoring [KeyName "a"; KeyObj "b" (Some (1 # 2))] in
  let record := VObj [("a", VStr "A"); ("b", VStr "B")] in
  let r := Result 0 record
             [FieldResult "a" (2 # 10) [(0, 0)%nat] None;
              FieldResult "b" (9 # 10) [(0, 0)%nat] None] None in
  exists weights r',
    collect_records Toy.scripted_search Toy.split Toy.getFn o [] "x"
      [(record,
        _search Toy.scripted_search Toy.split Toy.getFn Toy.highlighter o
                [] "x" (child_of o record))]
    = Returned (weights, [r])
    /\ compute_one (Some weights) r = Returned r'.
Proof.
  intros o record r.
  assert (Hc : exists weights,
             collect_records Toy.scripted_search Toy.split Toy.getFn o [] "x"
               [(record,
                 _search Toy.scripted_search Toy.split Toy.getFn Toy.highlighter
                         o [] "x" (child_of o record))]
             = Returned (weights, [r]))
    by (eexists; vm_compute; reflexivity).
  destruct Hc as [weights Hc].
  destruct (aggregate_score Toy.scripted_search Toy.split Toy.getFn o [] "x" _
              weights [r] r scripted_scores_in_range Hc (or_introl eq_refl))
    as (_ & r' & Hr' & _).
  exists weights, r'. split; [exact Hc|exact Hr'].
Defined.

(** A weight the subtraction absorbs: the key [b] declares 2^-60, the
    difference from 1 is 1, the key counts as unweighted and the aggregate
    is the mean of 0.2 and 0.9. *)
Lemma absorbed_weight_counts_as_one :
  stored_weight (Some (1 # 1152921504606846976)) = 1
  /\ exists q,
       search Toy.scripted_search Toy.split Toy.getFn Toy.highlighter
              (scoring [KeyName "a"; KeyObj "b" (Some (1 # 1152921504606846976))])
              [VObj [("a", VStr "A"); ("b", VStr "B")]] "x"
       = Returned (VArr [VObj [("item", VObj [("a", VStr "A"); ("b", VStr "B")]);
                               ("score", VNum q)]])
       /\ q == 55 # 100.
Proof.
  split; [reflexivity|].
  eexists. split; [vm_compute; reflexivity|reflexivity].
Qed.

(** C6: keys [a] (plain) and [{name: b, weight: 0.5}]; a record whose
    field [a] scores 0.2 and whose field [b] scores 0.9 gets the aggregate
    0.45, not the mean 0.55, both from [_computeScore] on the weights
    [_search] stores and from the search as a whole. *)
Theorem weighted_example_045 :
  (forall index item i1 i2,
      exists r' q,
        compute_one
          (Some (<["b"%string := stored_weight (Some (1 # 2))]>
                   (<["a"%string := 1]> ∅)))
          (Result index item [FieldResult "a" (2 # 10) i1 None;
                              FieldResult "b" (9 # 10) i2 None] None)
        = Returned r'
        /\ r_score r' = Some (Fin q) /\ q == 45 # 100
        /\ ~ q == mean [2 # 10; 9 # 10])
  /\ exists q,
       search Toy.scripted_search Toy.split Toy.getFn Toy.highlighter
              (scoring [KeyName "a"; KeyObj "b" (Some (1 # 2))])
              [VObj [("a", VStr "A"); ("b", VStr "B")]] "x"
       = Returned (VArr [VObj [("item", VObj [("a", VStr "A"); ("b", VStr "B")]);
                               ("score", VNum q)]])
       /\ q == 45 # 100.
Proof.
  split.
  - intros. eexists. eexists. split; [vm_compute; reflexivity|].
    split; [reflexivity|]. split; [reflexivity|discriminate].
  - eexists. split; [vm_compute; reflexivity|]. reflexivity.
Qed.

(** C4: an empty collection with the key [{name: a, weight: 2}]: no record
    is visited, so the weight is never examined and the search returns the
    empty list. *)
Lemma empty_collection_accepts_any_weight :
  search Toy.Bitap_search Toy.split Toy.getFn Toy.highlighter
         (Toy.defaults [KeyObj "a" (Some 2)]) [] "x"
  = Returned (VArr [])
  /\ weight_rejected (Some 2) = true.
Proof. split; vm_compute; reflexivity. Qed.

Lemma search_rejects_bad_weight_witness :
  first_is_string [VObj [("a", VStr "foo")]] = false
  /\ (search Toy.Bitap_search Toy.split Toy.getFn Toy.highlighter
             (Toy.defaults [KeyObj "a" (Some 2)]) [VObj [("a", VStr "foo")]] "foo"
      = Threw KeyWeightError
      <-> [VObj [("a", VStr "foo")]] <> []
          /\ existsb bad_key (keys (Toy.defaults [KeyObj "a" (Some 2)])) = true).
Proof.
  split; [reflexivity|].
  apply (search_rejects_bad_weight Toy.Bitap_search Toy.split Toy.getFn
           Toy.highlighter (Toy.defaults [KeyObj "a" (Some 2)])).
  reflexivity.
Defined.

(** Recursion into [children], scores included. *)
Definition recursing : options :=
  {| keys := [KeyName "t"]; id := None; shouldSort := true;
     sortFn := default_sortFn; tokenize := false; matchAllTokens := false;
     includeMatches := false; includeScore := true;
     recursive_enabled := true; recursive_key := "children";
     highlight_enabled := false |}.

Definition parent_fields : list (string * value) :=
  [("t", VStr "zzz"); ("children", VArr [VObj [("t", VStr "foobar")]])].

(** C9: a parent that matches only through a child has an empty [output];
    its aggregate is 0 / 0, the comparator answers [NaN] for it, and it
    stays ahead of a record whose aggregate is 0. *)
Lemma childless_parent_is_not_ranked :
  search Toy.Bitap_search Toy.split Toy.getFn Toy.highlighter recursing
         [VObj parent_fields; VObj [("t", VStr "foobar")]] "foobar"
  = Returned
      (VArr [VObj [("item",
                    VObj [("t", VStr "zzz");
                          ("children",
                           VArr [VObj [("item", VObj [("t", VStr "foobar")]);
                                       ("score", VNum 0)]])]);
                   ("score", VNaN)];
             VObj [("item", VObj [("t", VStr "foobar")]); ("score", VNum 0)]]).
Proof. vm_compute. reflexivity. Qed.

(** C7: a parent none of whose fields matches, with the matching child
    [foobar] given as a raw string.  The search of the children takes the
    flat branch and returns the object [{weights: null, results}], whose
    [length] is [undefined]: the parent is not pushed, and the results hold
    the second record only. *)
Lemma string_children_parent_dropped :
  _search Toy.Bitap_search Toy.split Toy.getFn Toy.highlighter recursing
          [] "foobar" (VArr [VStr "foobar"])
  = Returned
      (VObj [("weights", VNull);
             ("results",
              VArr [VObj [("item", VNum 0);
                          ("output",
                           VArr [VObj [("key", VStr "");
                                       ("score", VNum 0);
                                       ("matchedIndices",
                                        VArr [VArr [VNum 0; VNum 5]])]])]])])
  /\ search Toy.Bitap_search Toy.split Toy.getFn Toy.highlighter recursing
            [VObj [("t", VStr "zzz"); ("children", VArr [VStr "foobar"])];
             VObj [("t", VStr "foobar")]] "foobar"
     = Returned
         (VArr [VObj [("item", VObj [("t", VStr "foobar")]);
                      ("score", VNum 0)]]).
Proof. split; vm_compute; reflexivity. Qed.

Lemma recursion_splices_into_copy_witness :
  exists r,
    r_index r = 0%nat
    /\ js_get (r_item r) "children"
       = Returned (VArr [VObj [("item", VObj [("t", VStr "foobar")]);
                               ("score", VNum 0)]])
    /\ js_get (r_item r) "t" = Returned (VStr "zzz").
Proof.
  destruct (recursion_splices_into_copy
              Toy.Bitap_search Toy.split Toy.getFn Toy.highlighter recursing
              [] "foobar" [] [VObj [("t", VStr "foobar")]] parent_fields
              (VObj [("t", VStr "foobar")]) []
              (VArr [VObj [("item", VObj [("t", VStr "foobar")]);
                           ("score", VNum 0)]])
              (VArr [VObj [("item",
                            VObj [("t", VStr "zzz");
                                  ("children",
                                   VArr [VObj [("item", VObj [("t", VStr "foobar")]);
                                               ("score", VNum 0)]])]);
                           ("score", VNaN)];
                     VObj [("item", VObj [("t", VStr "foobar")]);
                           ("score", VNum 0)]]))
    as (ranked & out & r & _ & _ & _ & _ & Hi & _ & Hc & Hk & _).
  - reflexivity.
  - reflexivity.
  - repeat constructor; cbn; intuition discriminate.
  - reflexivity.
  - vm_compute. reflexivity.
  - reflexivity.
  - vm_compute. reflexivity.
  - exists r. split; [exact Hi|]. split; [exact Hc|].
    rewrite Hk by discriminate. reflexivity.
Defined.

Definition all_tokens : options :=
  {| keys := [KeyName "t"]; id := None; shouldSort := true;
     sortFn := default_sortFn; tokenize := true; matchAllTokens := true;
     includeMatches := false; includeScore := false;
     recursive_enabled := false; recursive_key := "undefined";
     highlight_enabled := false |}.

(** The query [foo bar] against the text [foobar baz]: the full text
    matches, the token [bar] matches no word, the text is left out. *)
Lemma matchAllTokens_excludes_field_witness :
  isMatch (Toy.Bitap_search "foo bar" "foobar baz") = true
  /\ _analyze Toy.Bitap_search Toy.split all_tokens "t" (VStr "foobar baz")
              (VObj [("t", VStr "foobar baz")]) 0
              (fst (_prepareSearchers Toy.split all_tokens "foo bar"))
              "foo bar" []
     = [].
Proof.
  split; [reflexivity|].
  apply (matchAllTokens_excludes_field Toy.Bitap_search Toy.split all_tokens
           "t" "foobar baz" (VObj [("t", VStr "foobar baz")]) 0
           (fst (_prepareSearchers Toy.split all_tokens "foo bar"))
           "foo bar" [] "bar").
  - reflexivity.
  - reflexivity.
  - cbn. auto.
  - intros word [<-|[<-|[]]]; reflexivity.
Defined.


Lemma weight_one_is_plain_key_witness :
  search Toy.Bitap_search Toy.split Toy.getFn Toy.highlighter
         (with_keys (Toy.defaults []) [KeyObj "t" (Some 1)])
         [VObj [("t", VStr "foobar")]] "foo"
  = search Toy.Bitap_search Toy.split Toy.getFn Toy.highlighter
           (with_keys (Toy.defaults []) [KeyName "t"])
           [VObj [("t", VStr "foobar")]] "foo".
Proof.
  apply (weight_one_is_plain_key Toy.Bitap_search Toy.split Toy.getFn
           Toy.highlighter (Toy.defaults [])
           [KeyObj "t" (Some 1)] [KeyName "t"]).
  constructor; [|constructor]. apply same_key_one. reflexivity.
Defined.

End Examples.

(** ** The properties on concrete collections *)

Module Coverage.

Definition by_title : options := Toy.defaults [KeyName "t"].

Definition books : list value :=
  [VObj [("t", VStr "fooxyz")]; VObj [("t", VStr "zzz")];
   VObj [("t", VStr "foobar")]].

(** The records of [books], each with the outcome of the search of its
    children, as [_search] pairs them. *)
Definition paired_books (o : options) : list (value * outcome value) :=
  map (fun item =>
         (item, _search Toy.Bitap_search Toy.split Toy.getFn Toy.highlighter o
                        [] "foobar" (child_of o item)))
      books.

Lemma toy_scores_in_range (t w : string) :
  0 <= mo_score (Toy.Bitap_search t w) <= 1.
Proof.
  unfold Toy.Bitap_search. destruct (String.prefix t w); [cbn; lra|].
  destruct (Nat.leb 3 (Toy.common_prefix t w)); cbn; lra.
Qed.

Lemma ranked_sorted_without_recursion_witness :
  exists ranked,
    ranked_records Toy.Bitap_search Toy.split Toy.getFn by_title [] "foobar"
                   (paired_books by_title) = Returned ranked
    /\ StronglySorted score_le ranked.
Proof.
  assert (H : exists ranked,
             ranked_records Toy.Bitap_search Toy.split Toy.getFn by_title
                            [] "foobar" (paired_books by_title) = Returned ranked)
    by (eexists; vm_compute; reflexivity).
  destruct H as [ranked H]. exists ranked. split; [exact H|].
  exact (ranked_sorted_without_recursion Toy.Bitap_search Toy.split Toy.getFn
           by_title [] "foobar" (paired_books by_title) ranked
           eq_refl eq_refl eq_refl H).
Defined.

Lemma computeScore_keeps_results_witness :
  exists out,
    _computeScore (Some (<["t"%string := 1]> ∅))
                  [Result 0 VNull [FieldResult "t" (1 # 2) [] None] None]
    = Returned out
    /\ Forall2 same_but_scores
         [Result 0 VNull [FieldResult "t" (1 # 2) [] None] None] out.
Proof.
  assert (H : exists out,
             _computeScore (Some (<["t"%string := 1]> ∅))
                           [Result 0 VNull [FieldResult "t" (1 # 2) [] None] None]
             = Returned out)
    by (eexists; vm_compute; reflexivity).
  destruct H as [out H]. exists out. split; [exact H|].
  exact (computeScore_keeps_results _ _ _ H).
Defined.



Lemma collect_one_result_per_record_witness :
  exists weights rs,
    collect_records Toy.Bitap_search Toy.split Toy.getFn by_title [] "foobar"
                    (paired_books by_title) = Returned (weights, rs)
    /\ StronglySorted lt (map r_index rs).
Proof.
  assert (H : exists weights rs,
             collect_records Toy.Bitap_search Toy.split Toy.getFn by_title
                             [] "foobar" (paired_books by_title)
             = Returned (weights, rs))
    by (eexists; eexists; vm_compute; reflexivity).
  destruct H as (weights & rs & H). exists weights, rs. split; [exact H|].
  exact (proj1 (collect_one_result_per_record _ _ _ _ _ _ _ _ _ H)).
Defined.

Lemma ranked_books :
  exists ranked,
    ranked_records Toy.Bitap_search Toy.split Toy.getFn Examples.recursing
                   [] "foobar" (paired_books Examples.recursing)
    = Returned ranked.
Proof. eexists. vm_compute. reflexivity. Defined.

Lemma ranked_results_stand_for_records_witness :
  exists ranked,
    ranked_records Toy.Bitap_search Toy.split Toy.getFn Examples.recursing
                   [] "foobar" (paired_books Examples.recursing)
    = Returned ranked
    /\ List.NoDup (map r_index ranked).
Proof.
  destruct ranked_books as [ranked H]. exists ranked. split; [exact H|].
  exact (proj2 (ranked_results_stand_for_records _ _ _ _ _ _ _ _ H)).
Defined.

Lemma default_search_returns_records_witness :
  exists positions,
    search Toy.Bitap_search Toy.split Toy.getFn Toy.highlighter by_title
           books "foobar"
    = Returned (VArr (map (fun i => nth i books VUndef) positions))
    /\ List.NoDup positions.
Proof.
  assert (H : exists v,
             search Toy.Bitap_search Toy.split Toy.getFn Toy.highlighter
                    by_title books "foobar" = Returned v)
    by (eexists; vm_compute; reflexivity).
  destruct H as [v H].
  destruct (default_search_returns_records Toy.Bitap_search Toy.split Toy.getFn
              Toy.highlighter by_title books "foobar" v
              eq_refl eq_refl eq_refl eq_refl eq_refl H)
    as (positions & -> & Hnd & _).
  exists positions. split; [exact H|exact Hnd].
Defined.

Lemma finalScore_range_witness :
  0 <= finalScore (Toy.Bitap_search "a" "a b")
         (snd (token_pass Toy.Bitap_search Toy.split Examples.tokenizing
                          "a b" ["a"%string]))
    <= 1.
Proof.
  exact (finalScore_range Toy.Bitap_search Toy.split Examples.tokenizing
           "a b" ["a"%string] "a" toy_scores_in_range).
Defined.

Lemma aggregate_range_witness :
  exists ranked,
    ranked_records Toy.Bitap_search Toy.split Toy.getFn Examples.recursing
                   [] "foobar" (paired_books Examples.recursing)
    = Returned ranked
    /\ forall r, In r ranked ->
         match r_output r with
         | [] => r_score r = Some NaN
         | _ :: _ => exists m, r_score r = Some (Fin m) /\ 0 <= m <= 1
         end.
Proof.
  destruct ranked_books as [ranked H]. exists ranked. split; [exact H|].
  exact (aggregate_range Toy.Bitap_search Toy.split Toy.getFn Examples.recursing
           [] "foobar" (paired_books Examples.recursing) ranked
           toy_scores_in_range H).
Defined.

(** A parent kept for its child, and a record of its own. *)
Definition family : list (value * outcome value) :=
  map (fun item =>
         (item, _search Toy.Bitap_search Toy.split Toy.getFn Toy.highlighter
                        Examples.recursing [] "foobar"
                        (child_of Examples.recursing item)))
      [VObj Examples.parent_fields; VObj [("t", VStr "foobar")]].

Lemma results_are_justified_witness :
  exists ranked,
    ranked_records Toy.Bitap_search Toy.split Toy.getFn Examples.recursing
                   [] "foobar" family
    = Returned ranked
    /\ length ranked = 2%nat
    /\ forall r, In r ranked -> justified Examples.recursing family r.
Proof.
  assert (H : exists ranked,
             ranked_records Toy.Bitap_search Toy.split Toy.getFn
                            Examples.recursing [] "foobar" family
             = Returned ranked /\ length ranked = 2%nat)
    by (eexists; split; vm_compute; reflexivity).
  destruct H as (ranked & H & Hl). exists ranked.
  split; [exact H|]. split; [exact Hl|].
  exact (results_are_justified Toy.Bitap_search Toy.split Toy.getFn
           Examples.recursing [] "foobar" family ranked H).
Defined.

(** The defaults, projecting every result to its [t]. *)
Definition projecting : options :=
  {| keys := [KeyName "t"]; id := Some "t"%string; shouldSort := true;
     sortFn := default_sortFn; tokenize := false; matchAllTokens := false;
     includeMatches := false; includeScore := false;
     recursive_enabled := false; recursive_key := "undefined";
     highlight_enabled := false |}.

Lemma format_returns_iff_witness :
  (exists out,
     _format Toy.getFn Toy.highlighter projecting
             [Result 0 (VObj [("t", VStr "foobar")]) [] None] = Returned out)
  <-> forall r, In r [Result 0 (VObj [("t", VStr "foobar")]) [] None] ->
        Toy.getFn (r_item r) "t" <> VUndef /\ Toy.getFn (r_item r) "t" <> VNull.
Proof.
  exact (format_returns_iff Toy.getFn Toy.highlighter projecting "t"
           [Result 0 (VObj [("t", VStr "foobar")]) [] None] eq_refl).
Defined.

End Coverage.
